(** * Kraken trade analyzer: FIFO lot accounting over 28-digit decimals

    A shallow embedding of [src/Kraken.py]:

    - [Decimal], the finite values of Python's [decimal.Decimal] under the
      context the module installs ([getcontext().prec = 28], rounding
      half-even, division by zero trapped);
    - [safe_div], [parse_pair];
    - the ledger record built by [aggregate_trades] and its two branches
      (buy, sell with the FIFO matching loop);
    - [total_remaining], [shrink_lots_fifo_to_target];
    - the per-pair figures of [build_rows_with_prices];
    - [is_rate_limit_error], [kraken_private_with_retry] and
      [fetch_all_trades] over a scripted client;
    - [maybe_adjust_balances] over the lines read from standard input;
    - the lines printed by [pretty_print].

    Scope of the number model.  A [Decimal] is a signed integer coefficient
    and an integer exponent.  The special values (NaN, Infinity), the sign
    of a zero and the exponent limits Emax/Emin of the context are not
    represented: exponents are unbounded.  Text is 8-bit ([string]), so
    [upper] and [lower] act on ASCII letters only. *)

From Stdlib Require Import ZArith List String Ascii Bool QArith Lia.
From Stdlib Require Import Permutation.
Import ListNotations.

Local Open Scope Z_scope.

(** ** Exceptions and results *)

(** What a call can end with besides a value.  [DivisionByZero] and
    [InvalidOperation] are the two signals of [decimal] that a division can
    trap; [OutOfFuel] is the model's own mark for a [while] loop that has
    not finished within its bound. *)
Inductive exn : Type :=
| DivisionByZero
| InvalidOperation
| OutOfFuel.

Inductive res (A : Type) : Type :=
| Ok (a : A)
| Raise (e : exn).

Arguments Ok {A} a.
Arguments Raise {A} e.

Definition bind {A B : Type} (m : res A) (f : A -> res B) : res B :=
  match m with
  | Ok a => f a
  | Raise e => Raise e
  end.

Notation "x <- m ;; k" := (bind m (fun x => k))
  (at level 61, m at next level, right associativity).

(** A Python [while cond: body] loop.  The loop state is threaded through
    [body]; [fuel] bounds the number of tests of [cond]. *)
Fixpoint while {S : Type} (fuel : nat) (cond : S -> bool) (body : S -> S)
  (s : S) : res S :=
  match fuel with
  | O => Raise OutOfFuel
  | Datatypes.S f => if cond s then while f cond body (body s) else Ok s
  end.

(** ** Decimal arithmetic (module [decimal], precision 28) *)

Module Dec.

Record Decimal : Type := mkDec { coef : Z; expo : Z }.

(** [getcontext().prec = 28] *)
Definition prec : Z := 28.

(** [Decimal("0")] *)
Definition zero : Decimal := mkDec 0 0.

(** [Decimal(n)] for an integer [n]. *)
Definition of_Z (n : Z) : Decimal := mkDec n 0.

(** Number of decimal digits of a non-negative integer, [len(str(n))]. *)
Fixpoint digits_aux (fuel : nat) (n : Z) : Z :=
  match fuel with
  | O => 1
  | S f => if n <? 10 then 1 else 1 + digits_aux f (n / 10)
  end.

Definition ndigits (n : Z) : Z := digits_aux (Z.to_nat (Z.log2 n)) n.

(** Rounding of a result to the context precision, round-half-even
    ([Decimal._fix] without the exponent limits). *)
Definition fix_ (x : Decimal) : Decimal :=
  let a := Z.abs (coef x) in
  if a <? 10 ^ prec then x
  else
    let k := ndigits a - prec in
    let q := a / 10 ^ k in
    let r := a mod 10 ^ k in
    let half := 5 * 10 ^ (k - 1) in
    let q1 := if (half <? r) || ((r =? half) && Z.odd q) then q + 1 else q in
    let '(q2, e2) :=
      if q1 =? 10 ^ prec then (10 ^ (prec - 1), expo x + k + 1)
      else (q1, expo x + k) in
    mkDec (Z.sgn (coef x) * q2) e2.

(** Both coefficients brought to the smaller of the two exponents. *)
Definition aligned (x y : Decimal) : Z * Z :=
  let e := Z.min (expo x) (expo y) in
  (coef x * 10 ^ (expo x - e), coef y * 10 ^ (expo y - e)).

Definition add (x y : Decimal) : Decimal :=
  let '(a, b) := aligned x y in
  fix_ (mkDec (a + b) (Z.min (expo x) (expo y))).

Definition sub (x y : Decimal) : Decimal :=
  let '(a, b) := aligned x y in
  fix_ (mkDec (a - b) (Z.min (expo x) (expo y))).

Definition mul (x y : Decimal) : Decimal :=
  fix_ (mkDec (coef x * coef y) (expo x + expo y)).

(** An exact quotient is brought as close to the ideal exponent as its
    trailing zeros allow: [while exp < ideal_exp and coeff % 10 == 0]. *)
Fixpoint strip_zeros (n : nat) (q e : Z) : Z * Z :=
  match n with
  | O => (q, e)
  | S m => if q mod 10 =? 0 then strip_zeros m (q / 10) (e + 1) else (q, e)
  end.

(** [x / y] ([Decimal.__truediv__]). *)
Definition div (x y : Decimal) : res Decimal :=
  if coef y =? 0 then
    Raise (if coef x =? 0 then InvalidOperation else DivisionByZero)
  else if coef x =? 0 then Ok (fix_ (mkDec 0 (expo x - expo y)))
  else
    let a := Z.abs (coef x) in
    let b := Z.abs (coef y) in
    let shift := ndigits b - ndigits a + prec + 1 in
    let e := expo x - expo y - shift in
    let '(q, r) :=
      if 0 <=? shift then Z.div_eucl (a * 10 ^ shift) b
      else Z.div_eucl a (b * 10 ^ (- shift)) in
    let '(q1, e1) :=
      if r =? 0 then strip_zeros (Z.to_nat shift) q e
      else ((if q mod 5 =? 0 then q + 1 else q), e) in
    Ok (fix_ (mkDec (Z.sgn (coef x) * Z.sgn (coef y) * q1) e1)).

(** Comparisons are numeric: the exponents are aligned first. *)
Definition ltb (x y : Decimal) : bool :=
  let '(a, b) := aligned x y in a <? b.

Definition leb (x y : Decimal) : bool :=
  let '(a, b) := aligned x y in a <=? b.

Definition eqb (x y : Decimal) : bool :=
  let '(a, b) := aligned x y in a =? b.

Definition gtb (x y : Decimal) : bool := ltb y x.
Definition geb (x y : Decimal) : bool := leb y x.
Definition neqb (x y : Decimal) : bool := negb (eqb x y).

(** Python's [min(a, b)]: the first argument unless the second is
    strictly smaller. *)
Definition min (a b : Decimal) : Decimal := if ltb b a then b else a.

(** [sum(xs, Decimal("0"))] *)
Definition sum (xs : list Decimal) : Decimal := fold_left add xs zero.

End Dec.

Export Dec.

Arguments Dec.fix_ : simpl never.
Arguments Dec.add : simpl never.
Arguments Dec.sub : simpl never.
Arguments Dec.mul : simpl never.
Arguments Dec.div : simpl never.
Arguments Dec.ltb : simpl never.
Arguments Dec.leb : simpl never.
Arguments Dec.eqb : simpl never.
Arguments Dec.gtb : simpl never.
Arguments Dec.geb : simpl never.
Arguments Dec.min : simpl never.
Arguments Dec.sum : simpl never.

Declare Scope dec_scope.
Delimit Scope dec_scope with dec.
Bind Scope dec_scope with Decimal.
Infix "+" := Dec.add : dec_scope.
Infix "-" := Dec.sub : dec_scope.
Infix "*" := Dec.mul : dec_scope.
Infix "<?" := Dec.ltb : dec_scope.
Infix "<=?" := Dec.leb : dec_scope.
Infix "=?" := Dec.eqb : dec_scope.
Infix ">?" := Dec.gtb : dec_scope.
Infix ">=?" := Dec.geb : dec_scope.
Notation "x == y" := (Dec.eqb x y = true) (at level 70, no associativity) : dec_scope.

(** ** Text helpers ([str] methods used by the source) *)

Local Open Scope string_scope.

Definition is_lower (c : ascii) : bool :=
  ((97 <=? nat_of_ascii c) && (nat_of_ascii c <=? 122))%nat.

Definition is_upper (c : ascii) : bool :=
  ((65 <=? nat_of_ascii c) && (nat_of_ascii c <=? 90))%nat.

Definition upper_char (c : ascii) : ascii :=
  if is_lower c then ascii_of_nat (nat_of_ascii c - 32) else c.

Definition lower_char (c : ascii) : ascii :=
  if is_upper c then ascii_of_nat (nat_of_ascii c + 32) else c.

(** [s.upper()], [s.lower()] *)
Fixpoint upper (s : string) : string :=
  match s with
  | EmptyString => EmptyString
  | String c s' => String (upper_char c) (upper s')
  end.

Fixpoint lower (s : string) : string :=
  match s with
  | EmptyString => EmptyString
  | String c s' => String (lower_char c) (lower s')
  end.

(** [s.replace(old, new)] for a non-empty [old]: occurrences are replaced
    left to right without overlap.  [skip] counts the characters of an
    occurrence that are still to be dropped. *)
Fixpoint replace_from (skip : nat) (old new s : string) : string :=
  match s with
  | EmptyString => EmptyString
  | String c s' =>
      match skip with
      | S k => replace_from k old new s'
      | O =>
          if prefix old s
          then new ++ replace_from (String.length old - 1) old new s'
          else String c (replace_from O old new s')
      end
  end.

Definition replace (old new s : string) : string := replace_from O old new s.

(** [c in s] for a one-character [c]. *)
Fixpoint contains (c : ascii) (s : string) : bool :=
  match s with
  | EmptyString => false
  | String a s' => Ascii.eqb a c || contains c s'
  end.

(** [s.rfind(c)]: index of the last occurrence, [None] for Python's -1. *)
Fixpoint rfind (c : ascii) (s : string) : option nat :=
  match s with
  | EmptyString => None
  | String a s' =>
      match rfind c s' with
      | Some i => Some (S i)
      | None => if Ascii.eqb a c then Some O else None
      end
  end.

(** Slices [s[:i]], [s[i:]] for [0 <= i], and [s[:-n]], [s[-n:]]. *)
Definition slice_to (i : nat) (s : string) : string := substring 0 i s.
Definition slice_from (i : nat) (s : string) : string :=
  substring i (String.length s - i) s.
Definition drop_last (n : nat) (s : string) : string :=
  slice_to (String.length s - n) s.
Definition take_last (n : nat) (s : string) : string :=
  slice_from (String.length s - n) s.

Definition nonempty (s : string) : bool :=
  match s with EmptyString => false | _ => true end.

(** Characters removed by [str.strip()] (ASCII white space). *)
Definition is_space (c : ascii) : bool :=
  let n := nat_of_ascii c in
  ((n =? 32) || ((9 <=? n) && (n <=? 13)) || ((28 <=? n) && (n <=? 31)))%nat.

Fixpoint lstrip (s : string) : string :=
  match s with
  | EmptyString => EmptyString
  | String c s' => if is_space c then lstrip s' else s
  end.

Fixpoint rstrip (s : string) : string :=
  match s with
  | EmptyString => EmptyString
  | String c s' =>
      match rstrip s' with
      | EmptyString => if is_space c then EmptyString else String c EmptyString
      | t => String c t
      end
  end.

Definition strip (s : string) : string := rstrip (lstrip s).

(** ** Small utility helpers *)

(** [def safe_div(n, dnm): return (n / dnm) if dnm != 0 else Decimal("0")] *)
Definition safe_div (n dnm : Decimal) : res Decimal :=
  if Dec.neqb dnm Dec.zero then Dec.div n dnm else Ok Dec.zero.

(** [parse_pair]: normalise a Kraken pair string into (base, quote). *)
Definition parse_pair (pair : string) : string * string :=
  if negb (nonempty pair) then ("", "")
  else
    let p := replace "XBT" "BTC" (upper (replace "/" "" pair)) in
    let legacy :=
      if contains "Z" p && (7 <=? String.length p)%nat then
        match rfind "Z" p with
        | Some i =>
            let left := slice_to i p in
            let right := slice_from (i + 1) p in
            if nonempty left && nonempty right
               && (3 <=? String.length right)%nat
               && (String.length right <=? 4)%nat
            then
              let left :=
                if prefix "X" left && (2 <=? String.length left)%nat
                then slice_from 1 left else left in
              Some (left, right)
            else None
        | None => None
        end
      else None in
    match legacy with
    | Some r => r
    | None =>
        if (4 <? String.length p)%nat then (drop_last 4 p, take_last 4 p)
        else if (3 <? String.length p)%nat then (drop_last 3 p, take_last 3 p)
        else (p, "")
    end.

(** ** Configuration *)

Definition INCLUDE_FEES_IN_COST : bool := true.
Definition ONLY_THESE_QUOTES : option (list string) := None.

(** [def d(x): return Decimal(str(x))].  On a value that already is a
    [Decimal] the round trip through its text is the identity. *)
Definition d (x : Decimal) : Decimal := x.

(** ** The ledger record *)

Local Open Scope dec_scope.

(** A FIFO lot, the list [[remaining_vol, unit_cost, total_cost]]. *)
Record Lot : Type := mkLot {
  lot_vol : Decimal;
  lot_px : Decimal;
  lot_cost : Decimal
}.

(** One value of the [agg] dictionary. *)
Record Rec : Type := mkRec {
  buy_vol : Decimal;
  buy_cost : Decimal;
  sell_vol : Decimal;
  sell_proceeds : Decimal;
  fees : Decimal;
  lots : list Lot;
  realized_pnl : Decimal;
  last_ts : Q;
  pair_name : option string
}.

(** The default factory of [agg]. *)
Definition new_rec : Rec :=
  mkRec Dec.zero Dec.zero Dec.zero Dec.zero Dec.zero [] Dec.zero 0%Q None.

Definition set_lots (r : Rec) (l : list Lot) : Rec :=
  mkRec (buy_vol r) (buy_cost r) (sell_vol r) (sell_proceeds r) (fees r) l
        (realized_pnl r) (last_ts r) (pair_name r).

Definition has_lots (l : list Lot) : bool :=
  match l with [] => false | _ :: _ => true end.

(** Bound on the number of loop tests of the two FIFO loops: every
    iteration but possibly the last one pops a lot. *)
Definition loop_fuel (l : list Lot) : nat := List.length l + 2.

(** *** Buy branch of [aggregate_trades] (lines 254-261) *)

Definition apply_buy (rec : Rec) (vol cost fee : Decimal) : res Rec :=
  let buy_cost1 := cost + (if INCLUDE_FEES_IN_COST then fee else Dec.zero) in
  unit_cost <- (if vol >? Dec.zero then safe_div buy_cost1 vol else Ok Dec.zero) ;;
  Ok (mkRec (buy_vol rec + vol) (buy_cost rec + buy_cost1)
            (sell_vol rec) (sell_proceeds rec) (fees rec + fee)
            (lots rec ++ [mkLot vol unit_cost buy_cost1])
            (realized_pnl rec) (last_ts rec) (pair_name rec)).

(** *** Sell branch of [aggregate_trades] (lines 263-288) *)

(** State of the matching loop: the deque, [remaining], [realized]. *)
Definition sell_state : Type := list Lot * Decimal * Decimal.

Definition sell_cond (st : sell_state) : bool :=
  let '(l, remaining, _) := st in (remaining >? Dec.zero) && has_lots l.

Definition sell_body (per_unit_proceeds : Decimal) (st : sell_state)
  : sell_state :=
  let '(l, remaining, realized) := st in
  match l with
  | [] => st
  | lot :: rest =>
      let use := Dec.min (lot_vol lot) remaining in
      let lot_cost_used := use * lot_px lot in
      let portion_proceeds := use * per_unit_proceeds in
      let realized := realized + (portion_proceeds - lot_cost_used) in
      let lot_vol1 := lot_vol lot - use in
      let remaining := remaining - use in
      if lot_vol1 <=? Dec.zero then (rest, remaining, realized)
      else (mkLot lot_vol1 (lot_px lot) (lot_vol1 * lot_px lot) :: rest,
            remaining, realized)
  end.

Definition per_unit_proceeds_of (proceeds vol : Decimal) : res Decimal :=
  if vol >? Dec.zero then safe_div proceeds vol else Ok Dec.zero.

Definition apply_sell (rec : Rec) (vol cost fee : Decimal) : res Rec :=
  let proceeds := cost - (if INCLUDE_FEES_IN_COST then fee else Dec.zero) in
  per_unit_proceeds <- per_unit_proceeds_of proceeds vol ;;
  st <- while (loop_fuel (lots rec)) sell_cond (sell_body per_unit_proceeds)
              (lots rec, vol, Dec.zero) ;;
  let '(l, _, realized) := st in
  Ok (mkRec (buy_vol rec) (buy_cost rec)
            (sell_vol rec + vol) (sell_proceeds rec + proceeds)
            (fees rec + fee) l
            (realized_pnl rec + realized) (last_ts rec) (pair_name rec)).

(** *** Interactive adjustments *)

(** [total_remaining]: (remaining_volume, remaining_cost) over the lots. *)
Definition total_remaining (rec : Rec) : Decimal * Decimal :=
  (Dec.sum (map lot_vol (lots rec)), Dec.sum (map lot_cost (lots rec))).

Definition shrink_state : Type := list Lot * Decimal.

Definition shrink_cond (st : shrink_state) : bool :=
  let '(l, to_reduce) := st in (to_reduce >? Dec.zero) && has_lots l.

Definition shrink_body (st : shrink_state) : shrink_state :=
  let '(l, to_reduce) := st in
  match l with
  | [] => st
  | lot :: rest =>
      let use := Dec.min (lot_vol lot) to_reduce in
      let lot_vol1 := lot_vol lot - use in
      let to_reduce := to_reduce - use in
      if lot_vol1 <=? Dec.zero then (rest, to_reduce)
      else (mkLot lot_vol1 (lot_px lot) (lot_vol1 * lot_px lot) :: rest,
            to_reduce)
  end.

(** [shrink_lots_fifo_to_target] *)
Definition shrink_lots_fifo_to_target (rec : Rec) (target_vol : Decimal)
  : res Rec :=
  let '(current_vol, _) := total_remaining rec in
  let target_vol := d target_vol in
  if target_vol >=? current_vol then Ok rec
  else
    let to_reduce := current_vol - target_vol in
    st <- while (loop_fuel (lots rec)) shrink_cond shrink_body
                (lots rec, to_reduce) ;;
    Ok (set_lots rec (fst st)).

(** *** Trade records and [aggregate_trades] *)

(** A value fetched with [t.get(key)]: missing (or falsy, so that the
    [or] default applies), present but rejected by the conversion, or
    present with the value it converts to. *)
Inductive field (A : Type) : Type :=
| Absent
| Malformed
| Value (a : A).

Arguments Absent {A}.
Arguments Malformed {A}.
Arguments Value {A} a.

Record trade : Type := mkTrade {
  t_pair : option string;
  t_type : option string;
  t_vol : field Decimal;
  t_price : field Decimal;
  t_cost : field Decimal;
  t_fee : field Decimal;
  t_time : field Q
}.

(** [conv(t.get(key) or default)] inside the [try] block: [None] stands
    for the exception that makes the loop skip the row. *)
Definition get_or {A : Type} (f : field A) (default : A) : option A :=
  match f with
  | Absent => Some default
  | Malformed => None
  | Value a => Some a
  end.

Definition or_empty (s : option string) : string :=
  match s with Some v => v | None => "" end.

Record parsed : Type := mkParsed {
  p_pair_name : string;
  p_typ : string;
  p_vol : Decimal;
  p_price : Decimal;
  p_cost : Decimal;
  p_fee : Decimal;
  p_ts : Q
}.

(** The [try] block of the loop (lines 233-243). *)
Definition parse_trade (t : trade) : option parsed :=
  let pair_name := strip (or_empty (t_pair t)) in
  let typ := lower (or_empty (t_type t)) in
  match get_or (t_vol t) Dec.zero with
  | None => None
  | Some vol =>
  match get_or (t_price t) Dec.zero with
  | None => None
  | Some price =>
  match get_or (t_cost t) (vol * price) with
  | None => None
  | Some cost =>
  match get_or (t_fee t) Dec.zero with
  | None => None
  | Some fee =>
  match get_or (t_time t) 0%Q with
  | None => None
  | Some ts => Some (mkParsed pair_name typ (d vol) (d price) (d cost) (d fee) ts)
  end end end end end.

(** Python's [max(a, b)] on time stamps: [a] unless [b] is greater. *)
Definition max_ts (a b : Q) : Q := if Qle_bool b a then a else b.

(** Lines 250-252: time stamp and example pair name. *)
Definition touch (rec : Rec) (name : string) (ts : Q) : Rec :=
  let keep :=
    match pair_name rec with
    | Some n => nonempty n
    | None => false
    end in
  mkRec (buy_vol rec) (buy_cost rec) (sell_vol rec) (sell_proceeds rec)
        (fees rec) (lots rec) (realized_pnl rec)
        (max_ts (last_ts rec) ts)
        (if keep then pair_name rec else Some name).

(** Lines 254-288 on the record of the trade's pair. *)
Definition apply_trade (rec : Rec) (t : parsed) : res Rec :=
  if String.eqb (p_typ t) "buy" then
    apply_buy rec (p_vol t) (p_cost t) (p_fee t)
  else if String.eqb (p_typ t) "sell" then
    apply_sell rec (p_vol t) (p_cost t) (p_fee t)
  else Ok rec.

(** The dictionary [agg], in insertion order. *)
Definition key : Type := (string * string)%type.
Definition book : Type := list (key * Rec).

Definition key_eqb (a b : key) : bool :=
  String.eqb (fst a) (fst b) && String.eqb (snd a) (snd b).

Fixpoint lookup (k : key) (agg : book) : option Rec :=
  match agg with
  | [] => None
  | (k', r) :: rest => if key_eqb k k' then Some r else lookup k rest
  end.

Fixpoint store (k : key) (r : Rec) (agg : book) : book :=
  match agg with
  | [] => [(k, r)]
  | (k', r') :: rest =>
      if key_eqb k k' then (k, r) :: rest else (k', r') :: store k r rest
  end.

(** [agg[(base, quote)]] on a [defaultdict]. *)
Definition get_rec (k : key) (agg : book) : Rec :=
  match lookup k agg with Some r => r | None => new_rec end.

Definition quote_allowed (quote : string) : bool :=
  match ONLY_THESE_QUOTES with
  | None => true
  | Some [] => true
  | Some qs => existsb (String.eqb quote) qs
  end.

(** One iteration of the loop over [trades]. *)
Definition aggregate_step (agg : book) (t : trade) : res book :=
  match parse_trade t with
  | None => Ok agg
  | Some pt =>
      let '(base, quote) := parse_pair (p_pair_name pt) in
      if negb (quote_allowed quote) then Ok agg
      else
        let rec := touch (get_rec (base, quote) agg) (p_pair_name pt) (p_ts pt) in
        rec' <- apply_trade rec pt ;;
        Ok (store (base, quote) rec' agg)
  end.

Fixpoint aggregate_from (agg : book) (trades : list trade) : res book :=
  match trades with
  | [] => Ok agg
  | t :: rest => agg' <- aggregate_step agg t ;; aggregate_from agg' rest
  end.

Definition aggregate_trades (trades : list trade) : res book :=
  aggregate_from [] trades.

(** *** [build_rows_with_prices] *)

(** The figures of one output row, before they are rendered with [str]. *)
Record row : Type := mkRow {
  asset : string;
  quote_ : string;
  total_bought : Decimal;
  avg_buy_price : Decimal;
  total_sold : Decimal;
  avg_sell_price : Decimal;
  net_from_history : Decimal;
  remaining_unsold_volume : Decimal;
  avg_buy_price_of_remaining : Decimal;
  fees_total : Decimal;
  realized_pnl_ : Decimal;
  current_price : Decimal;
  unrealized_pnl : Decimal
}.

Definition avg_of (total vol : Decimal) : res Decimal :=
  if vol >? Dec.zero then safe_div total vol else Ok Dec.zero.

Definition unrealized_of (current : Decimal) (l : list Lot) : Decimal :=
  fold_left (fun acc lot => acc + (current - lot_px lot) * lot_vol lot)
            l Dec.zero.

(** The body of the loop over [sorted(agg.items())]; [prices_by_pair] is
    the dictionary returned by [fetch_current_prices]. *)
Definition build_row (prices_by_pair : string -> option Decimal)
  (k : key) (r : Rec) : res row :=
  avg_buy <- avg_of (buy_cost r) (buy_vol r) ;;
  avg_sell <- avg_of (sell_proceeds r) (sell_vol r) ;;
  let remaining_vol := Dec.sum (map lot_vol (lots r)) in
  let remaining_cost := Dec.sum (map lot_cost (lots r)) in
  remaining_avg_buy <- avg_of remaining_cost remaining_vol ;;
  let current :=
    match pair_name r with
    | Some n => match prices_by_pair n with Some p => p | None => Dec.zero end
    | None => Dec.zero
    end in
  let unrealized :=
    if (current >? Dec.zero) && (remaining_vol >? Dec.zero)
    then unrealized_of current (lots r) else Dec.zero in
  Ok (mkRow (fst k) (snd k) (buy_vol r) avg_buy (sell_vol r) avg_sell
            (buy_vol r - sell_vol r) remaining_vol remaining_avg_buy
            (fees r) (realized_pnl r) current unrealized).

(** Order of [sorted] on the keys: base first, then quote. *)
Definition key_leb (a b : key) : bool :=
  match String.compare (fst a) (fst b) with
  | Lt => true
  | Gt => false
  | Eq => String.leb (snd a) (snd b)
  end.

Fixpoint insert_sorted (e : key * Rec) (l : book) : book :=
  match l with
  | [] => [e]
  | e' :: rest =>
      if key_leb (fst e) (fst e') then e :: l else e' :: insert_sorted e rest
  end.

Definition sorted_items (agg : book) : book :=
  fold_right insert_sorted [] agg.

Fixpoint build_rows_from (prices_by_pair : string -> option Decimal)
  (items : book) : res (list row) :=
  match items with
  | [] => Ok []
  | (k, r) :: rest =>
      x <- build_row prices_by_pair k r ;;
      xs <- build_rows_from prices_by_pair rest ;;
      Ok (x :: xs)
  end.

Definition build_rows_with_prices (agg : book)
  (prices_by_pair : string -> option Decimal) : res (list row) :=
  build_rows_from prices_by_pair (sorted_items agg).

(** ** Operation sequences on one ledger *)

(** The operations a ledger record receives: the two trade branches and
    the interactive shrink. *)
Inductive op : Type :=
| Buy (vol cost fee : Decimal)
| Sell (vol cost fee : Decimal)
| Shrink (target_vol : Decimal).

Definition apply_op (rec : Rec) (o : op) : res Rec :=
  match o with
  | Buy vol cost fee => apply_buy rec vol cost fee
  | Sell vol cost fee => apply_sell rec vol cost fee
  | Shrink target_vol => shrink_lots_fifo_to_target rec target_vol
  end.

(** The volume a shrink call sets out to remove: its [to_reduce], and
    nothing when the call returns early. *)
Definition shrink_amount (rec : Rec) (target_vol : Decimal) : Decimal :=
  let current_vol := fst (total_remaining rec) in
  if d target_vol >=? current_vol then Dec.zero
  else current_vol - d target_vol.

Definition removed_by (rec : Rec) (o : op) : Decimal :=
  match o with
  | Shrink target_vol => shrink_amount rec target_vol
  | _ => Dec.zero
  end.

(** A ledger with the running total of externally shrunk volume, which
    the program itself does not store. *)
Definition tracked : Type := (Rec * Decimal)%type.

Definition step (s : tracked) (o : op) : res tracked :=
  let '(rec, shrunk) := s in
  rec' <- apply_op rec o ;;
  Ok (rec', shrunk + removed_by rec o).

Fixpoint run (s : tracked) (ops : list op) : res tracked :=
  match ops with
  | [] => Ok s
  | o :: rest => s' <- step s o ;; run s' rest
  end.

Definition start : tracked := (new_rec, Dec.zero).

(** ** Structural reading of the two FIFO loops *)

(** The sell loop unrolled along the deque: a lot is either popped, and
    the loop goes on with the rest, or kept, and the loop stops. *)
Fixpoint fifo_match (pup : Decimal) (l : list Lot)
  (remaining realized : Decimal) : sell_state :=
  match l with
  | [] => ([], remaining, realized)
  | lot :: rest =>
      if remaining >? Dec.zero then
        let use := Dec.min (lot_vol lot) remaining in
        let realized1 := realized + (use * pup - use * lot_px lot) in
        let lot_vol1 := lot_vol lot - use in
        let remaining1 := remaining - use in
        if lot_vol1 <=? Dec.zero then fifo_match pup rest remaining1 realized1
        else (mkLot lot_vol1 (lot_px lot) (lot_vol1 * lot_px lot) :: rest,
              remaining1, realized1)
      else (l, remaining, realized)
  end.

Fixpoint fifo_shrink (l : list Lot) (to_reduce : Decimal) : shrink_state :=
  match l with
  | [] => ([], to_reduce)
  | lot :: rest =>
      if to_reduce >? Dec.zero then
        let use := Dec.min (lot_vol lot) to_reduce in
        let lot_vol1 := lot_vol lot - use in
        let to_reduce1 := to_reduce - use in
        if lot_vol1 <=? Dec.zero then fifo_shrink rest to_reduce1
        else (mkLot lot_vol1 (lot_px lot) (lot_vol1 * lot_px lot) :: rest,
              to_reduce1)
      else (l, to_reduce)
  end.

(** ** Notions used in the statements *)


(** Net proceeds of a sell, as the sell branch computes them. *)
Definition sell_total (cost fee : Decimal) : Decimal :=
  (cost - (if INCLUDE_FEES_IN_COST then fee else Dec.zero))%dec.

(** What the buy branch stores for a trade: its cost and its unit cost. *)
Definition buy_total (cost fee : Decimal) : Decimal :=
  cost + (if INCLUDE_FEES_IN_COST then fee else Dec.zero).

Definition buy_unit_cost (vol cost fee : Decimal) : res Decimal :=
  if vol >? Dec.zero then safe_div (buy_total cost fee) vol else Ok Dec.zero.


(** Unit costs recorded by the buys of a sequence, oldest first. *)
Fixpoint created_px (ops : list op) : list Decimal :=
  match ops with
  | [] => []
  | Buy vol cost fee :: rest =>
      match buy_unit_cost vol cost fee with
      | Ok u => u :: created_px rest
      | Raise _ => created_px rest
      end
  | _ :: rest => created_px rest
  end.

(** What a sell leaves of a deque: the [k] oldest lots are gone and the
    next one is either untouched or reduced in volume at its own price. *)
Definition head_consumed (before after : list Lot) : Prop :=
  exists k : nat,
    after = skipn k before
    \/ exists lot rest v,
         skipn k before = lot :: rest
         /\ after = mkLot v (lot_px lot) (v * lot_px lot) :: rest.

(** Realized PnL of lots matched in full at [pup] per unit. *)
Definition matched_pnl (pup : Decimal) (l : list Lot) : Decimal :=
  fold_left
    (fun acc lot => acc + (lot_vol lot * pup - lot_vol lot * lot_px lot))
    l Dec.zero.

(** A run of shrink calls. *)
Fixpoint shrink_all (rec : Rec) (targets : list Decimal) : res Rec :=
  match targets with
  | [] => Ok rec
  | t :: rest =>
      rec' <- shrink_lots_fifo_to_target rec t ;; shrink_all rec' rest
  end.

(** *** Volumes on a decimal grid

    [scaled k x] is [x] counted in units of [10^-k].  A volume is [plain]
    when it is non-negative and has at most [k] decimal places; sums and
    differences of plain volumes below [10^(28-k)] are not rounded. *)
Definition scaled (k : Z) (x : Decimal) : Z := coef x * 10 ^ (expo x + k).

Definition plain (k : Z) (x : Decimal) : bool :=
  (- k <=? expo x)%Z && (0 <=? coef x)%Z.

Definition total (k : Z) (xs : list Decimal) : Z :=
  fold_right (fun x acc => scaled k x + acc)%Z 0%Z xs.

Definition held (k : Z) (l : list Lot) : Z := total k (map lot_vol l).

Definition plain_lots (k : Z) (l : list Lot) : bool :=
  forallb (fun lot => plain k (lot_vol lot)) l.

(** An operation that stays on the grid: a buy keeps the bought total
    below 28 digits, a sell does not exceed the volume held. *)
Definition op_tame (k : Z) (rec : Rec) (o : op) : bool :=
  match o with
  | Buy vol _ _ =>
      plain k vol
      && (scaled k (buy_vol rec) + scaled k vol <? 10 ^ prec)%Z
  | Sell vol _ _ =>
      plain k vol && (vol <=? fst (total_remaining rec))%dec
  | Shrink target_vol => plain k target_vol
  end.

Fixpoint tame (k : Z) (rec : Rec) (ops : list op) : bool :=
  match ops with
  | [] => true
  | o :: rest =>
      op_tame k rec o
      && match apply_op rec o with
         | Ok rec' => tame k rec' rest
         | Raise _ => false
         end
  end.

(** The balance kept by operations on the grid: every stored volume is
    on the grid, the totals are not rounded, and the lots hold what was
    bought minus what was sold and shrunk. *)
Definition inv (k : Z) (s : tracked) : Prop :=
  let '(r, x) := s in
  plain_lots k (lots r) = true
  /\ (- k <= expo (buy_vol r))%Z
  /\ (- k <= expo (sell_vol r))%Z
  /\ (- k <= expo x)%Z
  /\ (0 <= scaled k (sell_vol r))%Z
  /\ (0 <= scaled k x)%Z
  /\ (scaled k (buy_vol r) < 10 ^ prec)%Z
  /\ (held k (lots r)
      = scaled k (buy_vol r) - scaled k (sell_vol r) - scaled k x)%Z.

(** *** Concrete inputs *)

Definition dz (n : Z) : Decimal := Dec.of_Z n.

Definition c1_trades : list trade :=
  [ mkTrade (Some "XETHZUSD") (Some "buy") (Value (dz 2)) (Value (dz 10))
            Absent Absent Absent;
    mkTrade (Some "XETHZUSD") (Some "buy") (Value (dz 3)) (Value (dz 20))
            Absent Absent Absent;
    mkTrade (Some "XETHZUSD") (Some "sell") (Value (dz 3)) (Value (dz 30))
            (Value (dz 90)) (Value (dz 0)) Absent ].

Definition c2_trades : list trade :=
  [ mkTrade (Some "XXBTZUSD") (Some "buy") (Value (mkDec 10 (-1)))
            (Value (dz 9000)) Absent (Value (dz 9)) Absent;
    mkTrade (Some "XXBTZUSD") (Some "sell") (Value (mkDec 4 (-1)))
            (Value (dz 10000)) Absent (Value (dz 4)) Absent ].

Definition no_prices : string -> option Decimal := fun _ => None.

Definition sample_rec : Rec :=
  mkRec (dz 5) (dz 80) (dz 0) (dz 0) (dz 0)
        [mkLot (dz 2) (dz 10) (dz 20); mkLot (dz 3) (dz 20) (dz 60)]
        (dz 0) 0%Q (Some "XETHZUSD").


Definition grid_ops : list op :=
  [Buy (mkDec 15 (-1)) (dz 30) (mkDec 3 (-1));
   Buy (dz 3) (dz 60) (dz 0);
   Sell (mkDec 25 (-1)) (dz 90) (dz 1);
   Shrink (mkDec 5 (-1));
   Buy (mkDec 125 (-2)) (dz 10) (dz 0)].

(** ** Further notions for the ledger and the book *)

(** Every lot of the deque holds a positive volume. *)
Definition positive_lots (l : list Lot) : bool :=
  forallb (fun lot => lot_vol lot >? Dec.zero) l.

Definition positive_buy (o : op) : bool :=
  match o with
  | Buy vol _ _ => vol >? Dec.zero
  | _ => true
  end.

(** The key a trade row is routed to, when the row is not skipped. *)
Definition trade_key (t : trade) : option key :=
  match parse_trade t with
  | Some pt => Some (parse_pair (p_pair_name pt))
  | None => None
  end.

Definition for_key (k : key) (t : trade) : bool :=
  match trade_key t with
  | Some k' => key_eqb k' k
  | None => false
  end.



(** The identifier as [parse_pair] works on it: slashes removed, upper
    case, XBT renamed (line 101). *)
Definition clean_pair (pair : string) : string :=
  replace "XBT" "BTC" (upper (replace "/" "" pair)).

(** ** Rate limit helpers and the trade history fetch *)

(** The value under the key "error" when it is truthy: a list of
    messages, or some other value, kept as the text [str] gives for it. *)
Inductive errors : Type :=
| ErrList (msgs : list string)
| ErrOther (text : string).

(** A response that is a dictionary: [resp.get("error")] ([None] when the
    key is absent), the values of [result["trades"]] (empty when absent)
    and [result["count"]] (0 when absent). *)
Record reply : Type := mkReply {
  r_error : option errors;
  r_trades : list trade;
  r_count : Z
}.

Inductive response : Type :=
| NotADict
| Dict (r : reply).

(** [needle in hay] on strings. *)
Fixpoint contains_str (needle hay : string) : bool :=
  prefix needle hay
  || match hay with
     | EmptyString => false
     | String _ rest => contains_str needle rest
     end.

(** Truth value of [resp.get("error")]. *)
Definition has_error (e : option errors) : bool :=
  match e with
  | None => false
  | Some (ErrList []) => false
  | Some (ErrList (_ :: _)) => true
  | Some (ErrOther _) => true
  end.

(** The message [is_rate_limit_error] searches (lines 62-66). *)
Definition error_message (e : option errors) : string :=
  match e with
  | None => lower (concat " " [])
  | Some (ErrList msgs) => lower (concat " " msgs)
  | Some (ErrOther text) => lower text
  end.

Definition is_rate_limit_error (resp : response) : bool :=
  match resp with
  | NotADict => false
  | Dict r =>
      let msg := error_message (r_error r) in
      contains_str "rate limit" msg || contains_str "exceeded" msg
  end.

Definition MAX_RETRIES : nat := 8.

(** [kraken_private_with_retry].  [query i] is the response the client
    gives to its [i]-th private query with the endpoint and parameters of
    this call; [n] counts the queries made so far.  Of each
    [time.sleep] only the exponent [tries] of its backoff
    [BASE_BACKOFF * 2 ** tries] is recorded: the duration is a jittered
    floating-point number and does not influence what is returned. *)
Fixpoint retry_loop (fuel : nat) (query : nat -> response)
  (n tries : nat) (slept : list nat) : option (response * nat * list nat) :=
  match fuel with
  | O => None
  | S f =>
      let resp := query n in
      if negb (is_rate_limit_error resp) then Some (resp, S n, slept)
      else
        let slept := (slept ++ [tries])%list in
        let tries := S tries in
        if (MAX_RETRIES <? tries)%nat then Some (resp, S n, slept)
        else retry_loop f query (S n) tries slept
  end.

Definition kraken_private_with_retry (query : nat -> response) (n : nat)
  : option (response * nat * list nat) :=
  retry_loop (MAX_RETRIES + 1) query n 0 [].

(** How [fetch_all_trades] can end: with its list, with the
    [RuntimeError] it raises on an error response, with the
    [AttributeError] of [resp.get] on a response that is no dictionary, or
    not within the bound on the number of pages. *)
Inductive fetched : Type :=
| Trades (trades : list trade) (queries : nat)
| RuntimeError (e : option errors) (queries : nat)
| AttributeError
| Unfinished.

(** [fetch_all_trades].  [k i ofs] is the response of the client to its
    [i]-th private query when asked for offset [ofs].  The number of
    queries made is carried along and reported with the result; the pause
    between two pages is not represented.  The loop of the source has no
    bound: [fuel] bounds the number of pages here. *)
Fixpoint fetch_loop (fuel : nat) (k : nat -> Z -> response)
  (n : nat) (ofs : Z) (trades : list trade) : fetched :=
  match fuel with
  | O => Unfinished
  | S f =>
      match kraken_private_with_retry (fun i => k i ofs) n with
      | None => Unfinished
      | Some (resp, n', _) =>
          match resp with
          | NotADict => AttributeError
          | Dict r =>
              if has_error (r_error r) then RuntimeError (r_error r) n'
              else
                let page := r_trades r in
                let trades := (trades ++ page)%list in
                let count := r_count r in
                let ofs := (ofs + Z.of_nat (List.length page))%Z in
                if (count <=? ofs)%Z then Trades trades n'
                else fetch_loop f k n' ofs trades
          end
      end
  end.

Definition fetch_all_trades (fuel : nat) (k : nat -> Z -> response)
  : fetched :=
  fetch_loop fuel k 0 0%Z [].

(** A client that serves the history [all] in pages of [size] rows and
    never reports an error. *)
Definition paging_client (all : list trade) (size : nat)
  : nat -> Z -> response :=
  fun _ ofs =>
    Dict (mkReply None (firstn size (skipn (Z.to_nat ofs) all))
                  (Z.of_nat (List.length all))).

(** ** Interactive adjustment *)

(** [s.split(",")] *)
Fixpoint split_commas (s : string) : list string :=
  match s with
  | EmptyString => [EmptyString]
  | String c rest =>
      if Ascii.eqb c "," then EmptyString :: split_commas rest
      else
        match split_commas rest with
        | piece :: pieces => String c piece :: pieces
        | [] => [String c EmptyString]
        end
  end.

Definition is_digit (c : ascii) : bool :=
  ((48 <=? nat_of_ascii c) && (nat_of_ascii c <=? 57))%nat.

Fixpoint all_digits (s : string) : bool :=
  match s with
  | EmptyString => true
  | String c rest => is_digit c && all_digits rest
  end.

(** [s.isdigit()] on ASCII text. *)
Definition isdigit (s : string) : bool := nonempty s && all_digits s.

Fixpoint digits_value (acc : nat) (s : string) : nat :=
  match s with
  | EmptyString => acc
  | String c rest => digits_value (10 * acc + (nat_of_ascii c - 48)) rest
  end.

(** [int(x)] for a text whose stripped form is made of digits. *)
Definition int_of (x : string) : nat := digits_value 0 (strip x).

(** Clients of a ledger see it through its key: the records listed in
    [items] are the very objects stored in [agg]. *)
Definition adjustable (agg : book) : list key :=
  map fst
      (filter (fun e => fst (total_remaining (snd e)) >? Dec.zero)
              (sorted_items agg)).

(** The indices chosen on the menu (lines 356-367). *)
Definition chosen (choice : string) (n_items : nat) : list nat :=
  if String.eqb choice "all" then seq 1 n_items
  else
    filter (fun i => (1 <=? i)%nat && (i <=? n_items)%nat)
           (map int_of (filter (fun x => isdigit (strip x))
                               (split_commas choice))).

Section Interactive.

(** [Decimal(text)]: [None] when the constructor rejects the text. *)
Variable decimal_of_text : string -> option Decimal.

(** The prompt loop for one selected entry (lines 372-385).  [inputs] are
    the lines still to be read from standard input; reading from an empty
    list is [EOFError].  The result is the book, the lines left, and
    whether the function returns for lack of input. *)
Fixpoint prompt_target (agg : book) (k : key) (inputs : list string)
  : book * list string * bool :=
  match inputs with
  | [] => (agg, [], true)
  | line :: rest =>
      match decimal_of_text (strip line) with
      | None => prompt_target agg k rest
      | Some target =>
          if d target <? Dec.zero then prompt_target agg k rest
          else
            match shrink_lots_fifo_to_target (get_rec k agg) (d target) with
            | Ok rec' => (store k rec' agg, rest, false)
            | Raise _ => prompt_target agg k rest
            end
      end
  end.

Fixpoint adjust_each (agg : book) (items : list key) (indices : list nat)
  (inputs : list string) : book :=
  match indices with
  | [] => agg
  | i :: more =>
      match nth_error items (i - 1) with
      | None => agg
      | Some k =>
          let '(agg', rest, eof) := prompt_target agg k inputs in
          if eof then agg' else adjust_each agg' items more rest
      end
  end.

(** [maybe_adjust_balances]: the book as the function leaves it. *)
Definition maybe_adjust_balances (agg : book) (inputs : list string) : book :=
  match inputs with
  | [] => agg
  | answer :: inputs =>
      let answer := lower (strip answer) in
      if negb (String.eqb answer "y" || String.eqb answer "yes") then agg
      else
        let items := adjustable agg in
        match items with
        | [] => agg
        | _ :: _ =>
            match inputs with
            | [] => agg
            | choice :: inputs =>
                let indices :=
                  chosen (lower (strip choice)) (List.length items) in
                match indices with
                | [] => agg
                | _ :: _ => adjust_each agg items indices inputs
                end
            end
        end
  end.

End Interactive.

(** A run of shrinks on records of the book, oldest first. *)
Fixpoint apply_adjustments (agg : book) (adj : list (key * Decimal)) : book :=
  match adj with
  | [] => agg
  | (k, target) :: rest =>
      match shrink_lots_fifo_to_target (get_rec k agg) target with
      | Ok rec' => apply_adjustments (store k rec' agg) rest
      | Raise _ => apply_adjustments agg rest
      end
  end.

Definition digits_only (text : string) : option Decimal :=
  if isdigit text then Some (dz (Z.of_nat (digits_value 0 text))) else None.

Definition limited_client : nat -> Z -> response :=
  fun _ _ => Dict (mkReply (Some (ErrList ["EAPI:Rate limit exceeded"]))
                           [] 0%Z).

Definition empty_pages_client : nat -> Z -> response :=
  fun _ _ => Dict (mkReply None [] 5%Z).

(** What an adjustment may change in a record: nothing but the deque,
    and in the deque nothing but by consuming from its head, so that the
    unit costs left are a suffix of those before. *)
Definition same_accounts (r r' : Rec) : Prop :=
  buy_vol r' = buy_vol r
  /\ buy_cost r' = buy_cost r
  /\ sell_vol r' = sell_vol r
  /\ sell_proceeds r' = sell_proceeds r
  /\ fees r' = fees r
  /\ realized_pnl r' = realized_pnl r
  /\ last_ts r' = last_ts r
  /\ pair_name r' = pair_name r
  /\ exists j, map lot_px (lots r') = skipn j (map lot_px (lots r)).

(** Lots whose volume is not negative and whose unit cost is at most,
    respectively at least, a given price. *)
Definition priced_below (price : Decimal) (lot : Lot) : bool :=
  (0 <=? coef (lot_vol lot))%Z && (lot_px lot <=? price).

Definition priced_above (price : Decimal) (lot : Lot) : bool :=
  (0 <=? coef (lot_vol lot))%Z && (price <=? lot_px lot).

(** A row that the [try] block of [aggregate_trades] does not skip. *)
Definition well_formed (t : trade) : bool :=
  match parse_trade t with
  | Some _ => true
  | None => false
  end.

(** ** Output helpers *)

(** The column names of [pretty_print] and [write_csv]. *)
Definition headers : list string :=
  ["asset"; "quote"; "total_bought"; "avg_buy_price";
   "total_sold"; "avg_sell_price"; "net_from_history";
   "remaining_unsold_volume"; "avg_buy_price_of_remaining";
   "fees_total"; "realized_pnl"; "current_price"; "unrealized_pnl"].

(** A row as the output helpers receive it: the text under each column
    name, [r[h]]. *)
Definition text_row : Type := string -> string.

(** [c * n] for a one-character text [c]. *)
Fixpoint repeat_char (c : ascii) (n : nat) : string :=
  match n with
  | O => EmptyString
  | S m => String c (repeat_char c m)
  end.

(** [s.ljust(w)] *)
Definition ljust (w : nat) (s : string) : string :=
  s ++ repeat_char " " (w - String.length s).

(** [widths[h]] (line 128). *)
Definition width_of (rows : list text_row) (h : string) : nat :=
  Nat.max (String.length h)
          (fold_right (fun r m => Nat.max (String.length (r h)) m) O rows).

(** [pretty_print]: the lines it prints, first to last. *)
Definition pretty_print (rows : list text_row) : list string :=
  match rows with
  | [] => ["No trades found."]
  | _ :: _ =>
      let line :=
        concat " | " (map (fun h => ljust (width_of rows h) h) headers) in
      line
        :: repeat_char "-" (String.length line)
        :: map (fun r =>
                  concat " | "
                         (map (fun h => ljust (width_of rows h) (r h)) headers))
               rows
  end.

Definition sample_text_row : text_row :=
  fun h => if String.eqb h "asset" then "ETH"
           else if String.eqb h "remaining_unsold_volume"
                then "1.000000000000000000000000000E+28"
                else "0".

Arguments scaled : simpl never.
Arguments plain : simpl never.

(** ** Facts about decimals *)

Local Close Scope dec_scope.
Local Close Scope string_scope.

Section DecimalFacts.

Lemma pow10_pos (n : Z) : 0 <= n -> 0 < 10 ^ n.
Proof. intros; apply Z.pow_pos_nonneg; lia. Qed.

Lemma fix_small (x : Decimal) : Z.abs (coef x) < 10 ^ prec -> fix_ x = x.
Proof.
  intros H. unfold fix_.
  destruct (Z.ltb_spec (Z.abs (coef x)) (10 ^ prec)); [reflexivity | lia].
Qed.

Lemma fix_zero (e : Z) : fix_ (mkDec 0 e) = mkDec 0 e.
Proof. apply fix_small. cbn [coef Z.abs]. apply pow10_pos. unfold prec. lia. Qed.

Lemma sub_self (x : Decimal) : (x - x)%dec = mkDec 0 (expo x).
Proof.
  unfold Dec.sub, aligned.
  rewrite Z.sub_diag, Z.min_id. apply fix_zero.
Qed.

Lemma aligned_zero_r (x : Decimal) :
  exists p, 0 < p /\ aligned x Dec.zero = (coef x * p, 0).
Proof.
  unfold aligned. cbn [coef expo Dec.zero].
  exists (10 ^ (expo x - Z.min (expo x) 0)). split.
  - apply pow10_pos; lia.
  - reflexivity.
Qed.

Lemma aligned_zero_l (x : Decimal) :
  exists p, 0 < p /\ aligned Dec.zero x = (0, coef x * p).
Proof.
  unfold aligned. cbn [coef expo Dec.zero].
  exists (10 ^ (expo x - Z.min 0 (expo x))). split.
  - apply pow10_pos; lia.
  - reflexivity.
Qed.

Lemma gtb_zero_iff (x : Decimal) : (x >? Dec.zero)%dec = true <-> 0 < coef x.
Proof.
  unfold Dec.gtb, Dec.ltb.
  destruct (aligned_zero_l x) as (p & Hp & ->).
  rewrite Z.ltb_lt. nia.
Qed.

Lemma leb_zero_iff (x : Decimal) : (x <=? Dec.zero)%dec = true <-> coef x <= 0.
Proof.
  unfold Dec.leb.
  destruct (aligned_zero_r x) as (p & Hp & ->).
  rewrite Z.leb_le. nia.
Qed.

Lemma eqb_zero_iff (x : Decimal) : (x =? Dec.zero)%dec = true <-> coef x = 0.
Proof.
  unfold Dec.eqb.
  destruct (aligned_zero_r x) as (p & Hp & ->).
  rewrite Z.eqb_eq. nia.
Qed.

Lemma gtb_zero_false (x : Decimal) : coef x <= 0 -> (x >? Dec.zero)%dec = false.
Proof.
  intros H. destruct (x >? Dec.zero)%dec eqn:E; [|reflexivity].
  apply gtb_zero_iff in E. lia.
Qed.

Lemma eqb_refl (x : Decimal) : (x =? x)%dec = true.
Proof. unfold Dec.eqb, aligned. apply Z.eqb_refl. Qed.

(** [min] returns one of its arguments. *)
Lemma min_cases (a b : Decimal) : Dec.min a b = a \/ Dec.min a b = b.
Proof. unfold Dec.min. destruct (Dec.ltb b a); auto. Qed.

End DecimalFacts.

(** Some values of the context arithmetic: a rounded quotient, a tie
    rounded to even, an exact quotient at its ideal exponent. *)
Example div_10_3 :
  Dec.div (dz 10) (dz 3) = Ok (mkDec 3333333333333333333333333333 (-27)).
Proof. vm_compute. reflexivity. Qed.

Example div_1_7 :
  Dec.div (dz 1) (dz 7) = Ok (mkDec 1428571428571428571428571429 (-28)).
Proof. vm_compute. reflexivity. Qed.

Example div_exact : Dec.div (mkDec 90090 (-1)) (mkDec 10 (-1)) = Ok (dz 9009).
Proof. vm_compute. reflexivity. Qed.

Example sub_tie_to_even :
  Dec.sub (dz (10 ^ 28 + 6)) (dz 1) = mkDec (10 ^ 27) 1.
Proof. vm_compute. reflexivity. Qed.

Example mul_tie_to_even :
  Dec.mul (mkDec 15 (-1)) (mkDec 3333333333333333333333333333 (-27))
  = mkDec 5000000000000000000000000000 (-27).
Proof. vm_compute. reflexivity. Qed.

(** ** Division never fails behind its guard *)

Lemma div_ok (n dnm : Decimal) :
  coef dnm <> 0 -> exists q, Dec.div n dnm = Ok q.
Proof.
  intros H. unfold Dec.div.
  destruct (Z.eqb_spec (coef dnm) 0) as [E|_]; [contradiction|].
  destruct (coef n =? 0)%Z; [eexists; reflexivity|].
  destruct (if 0 <=? _ then _ else _)%Z as [q r].
  destruct (if (r =? 0)%Z then _ else _) as [q1 e1].
  eexists; reflexivity.
Qed.

Lemma safe_div_ok (n dnm : Decimal) : exists q, safe_div n dnm = Ok q.
Proof.
  unfold safe_div, Dec.neqb.
  destruct (dnm =? Dec.zero)%dec eqn:E; cbn.
  - eexists; reflexivity.
  - apply div_ok. intros H. apply eqb_zero_iff in H. congruence.
Qed.

Lemma safe_div_zero (n dnm : Decimal) :
  coef dnm = 0 -> safe_div n dnm = Ok Dec.zero.
Proof.
  intros H. unfold safe_div, Dec.neqb.
  apply eqb_zero_iff in H. rewrite H. reflexivity.
Qed.

Lemma guarded_div_ok (total vol : Decimal) :
  exists q, (if vol >? Dec.zero then safe_div total vol else Ok Dec.zero)%dec = Ok q.
Proof.
  destruct (vol >? Dec.zero)%dec; [apply safe_div_ok | eexists; reflexivity].
Qed.

Lemma guarded_div_zero (total vol : Decimal) :
  coef vol = 0 ->
  (if vol >? Dec.zero then safe_div total vol else Ok Dec.zero)%dec = Ok Dec.zero.
Proof.
  intros H. rewrite gtb_zero_false by lia. reflexivity.
Qed.

(** ** The loops terminate within their bound *)

Lemma while_sell (pup : Decimal) (l : list Lot) :
  forall (fuel : nat) (remaining realized : Decimal),
    (List.length l + 2 <= fuel)%nat ->
    while fuel sell_cond (sell_body pup) (l, remaining, realized)
    = Ok (fifo_match pup l remaining realized).
Proof.
  induction l as [|lot rest IH]; intros fuel remaining realized Hf.
  - destruct fuel as [|f]; [cbn in Hf; lia|].
    cbn. rewrite andb_false_r. reflexivity.
  - destruct fuel as [|f]; [cbn in Hf; lia|].
    cbn [List.length] in Hf.
    cbn [while sell_cond fifo_match has_lots].
    rewrite andb_true_r.
    destruct (remaining >? Dec.zero)%dec eqn:Hr; [|reflexivity].
    cbn [sell_body].
    destruct (lot_vol lot - Dec.min (lot_vol lot) remaining <=? Dec.zero)%dec eqn:Hp.
    + apply IH. lia.
    + assert (Hm : Dec.min (lot_vol lot) remaining = remaining).
      { destruct (min_cases (lot_vol lot) remaining) as [E|E]; [|exact E].
        rewrite E, sub_self in Hp.
        assert (Hz : (mkDec 0 (expo (lot_vol lot)) <=? Dec.zero)%dec = true)
          by (apply leb_zero_iff; cbn; lia).
        congruence. }
      destruct f as [|f']; [lia|].
      cbn [while sell_cond].
      rewrite Hm, sub_self, gtb_zero_false by (cbn; lia).
      reflexivity.
Qed.

Lemma while_shrink (l : list Lot) :
  forall (fuel : nat) (to_reduce : Decimal),
    (List.length l + 2 <= fuel)%nat ->
    while fuel shrink_cond shrink_body (l, to_reduce)
    = Ok (fifo_shrink l to_reduce).
Proof.
  induction l as [|lot rest IH]; intros fuel to_reduce Hf.
  - destruct fuel as [|f]; [cbn in Hf; lia|].
    cbn. rewrite andb_false_r. reflexivity.
  - destruct fuel as [|f]; [cbn in Hf; lia|].
    cbn [List.length] in Hf.
    cbn [while shrink_cond fifo_shrink has_lots].
    rewrite andb_true_r.
    destruct (to_reduce >? Dec.zero)%dec eqn:Hr; [|reflexivity].
    cbn [shrink_body].
    destruct (lot_vol lot - Dec.min (lot_vol lot) to_reduce <=? Dec.zero)%dec eqn:Hp.
    + apply IH. lia.
    + assert (Hm : Dec.min (lot_vol lot) to_reduce = to_reduce).
      { destruct (min_cases (lot_vol lot) to_reduce) as [E|E]; [|exact E].
        rewrite E, sub_self in Hp.
        assert (Hz : (mkDec 0 (expo (lot_vol lot)) <=? Dec.zero)%dec = true)
          by (apply leb_zero_iff; cbn; lia).
        congruence. }
      destruct f as [|f']; [lia|].
      cbn [while shrink_cond].
      rewrite Hm, sub_self, gtb_zero_false by (cbn; lia).
      reflexivity.
Qed.

(** ** The three operations in closed form *)

Lemma apply_buy_eq (rec : Rec) (vol cost fee : Decimal) :
  exists u,
    buy_unit_cost vol cost fee = Ok u
    /\ apply_buy rec vol cost fee
       = Ok (mkRec (buy_vol rec + vol) (buy_cost rec + buy_total cost fee)
                   (sell_vol rec) (sell_proceeds rec) (fees rec + fee)
                   (lots rec ++ [mkLot vol u (buy_total cost fee)])
                   (realized_pnl rec) (last_ts rec) (pair_name rec)).
Proof.
  unfold apply_buy, buy_unit_cost, buy_total.
  destruct (guarded_div_ok
              (cost + (if INCLUDE_FEES_IN_COST then fee else Dec.zero)) vol)
    as [q Hq].
  rewrite Hq. exists q. split; reflexivity.
Qed.

Lemma apply_sell_eq (rec : Rec) (vol cost fee : Decimal) :
  exists pup,
    per_unit_proceeds_of (sell_total cost fee) vol = Ok pup
    /\ apply_sell rec vol cost fee
       = Ok (let '(l, _, realized) := fifo_match pup (lots rec) vol Dec.zero in
             mkRec (buy_vol rec) (buy_cost rec)
                   (sell_vol rec + vol) (sell_proceeds rec + sell_total cost fee)
                   (fees rec + fee) l
                   (realized_pnl rec + realized) (last_ts rec) (pair_name rec)).
Proof.
  unfold apply_sell, per_unit_proceeds_of, sell_total.
  destruct (guarded_div_ok
              (cost - (if INCLUDE_FEES_IN_COST then fee else Dec.zero)) vol)
    as [q Hq].
  rewrite Hq. exists q. split; [reflexivity|].
  cbn [bind]. rewrite while_sell by (unfold loop_fuel; lia).
  cbn [bind]. destruct (fifo_match q (lots rec) vol Dec.zero) as [[l r] z].
  reflexivity.
Qed.

Lemma shrink_eq (rec : Rec) (target_vol : Decimal) :
  shrink_lots_fifo_to_target rec target_vol
  = Ok (if (target_vol >=? fst (total_remaining rec))%dec then rec
        else set_lots rec
               (fst (fifo_shrink (lots rec)
                       (fst (total_remaining rec) - target_vol)))).
Proof.
  unfold shrink_lots_fifo_to_target, d.
  destruct (total_remaining rec) as [current_vol c] eqn:E. cbn [fst].
  destruct (target_vol >=? current_vol)%dec; [reflexivity|].
  rewrite while_shrink by (unfold loop_fuel; lia). reflexivity.
Qed.

Lemma apply_op_ok (rec : Rec) (o : op) : exists rec', apply_op rec o = Ok rec'.
Proof.
  destruct o as [vol cost fee|vol cost fee|t]; cbn [apply_op].
  - destruct (apply_buy_eq rec vol cost fee) as (u & _ & ->). eauto.
  - destruct (apply_sell_eq rec vol cost fee) as (u & _ & ->). eauto.
  - rewrite shrink_eq. eauto.
Qed.

Lemma run_ok (ops : list op) : forall s, exists s', run s ops = Ok s'.
Proof.
  induction ops as [|o rest IH]; intros [rec x]; cbn [run step].
  - eauto.
  - destruct (apply_op_ok rec o) as [rec' ->]. cbn [bind]. apply IH.
Qed.

Lemma apply_trade_ok (rec : Rec) (t : parsed) :
  exists rec', apply_trade rec t = Ok rec'.
Proof.
  unfold apply_trade.
  destruct (String.eqb (p_typ t) "buy");
    [apply (apply_op_ok rec (Buy (p_vol t) (p_cost t) (p_fee t)))|].
  destruct (String.eqb (p_typ t) "sell");
    [apply (apply_op_ok rec (Sell (p_vol t) (p_cost t) (p_fee t)))|].
  eauto.
Qed.

(** [aggregate_trades] returns for every list of trades: malformed rows
    are skipped and no division is reached with a zero divisor. *)
Lemma aggregate_from_ok (trades : list trade) :
  forall agg, exists agg', aggregate_from agg trades = Ok agg'.
Proof.
  induction trades as [|t rest IH]; intros agg; cbn [aggregate_from].
  - eauto.
  - unfold aggregate_step.
    destruct (parse_trade t) as [pt|]; [|cbn [bind]; apply IH].
    destruct (parse_pair (p_pair_name pt)) as [base quote].
    destruct (negb (quote_allowed quote)); [cbn [bind]; apply IH|].
    destruct (apply_trade_ok
                (touch (get_rec (base, quote) agg) (p_pair_name pt) (p_ts pt)) pt)
      as [rec' ->].
    cbn [bind]. apply IH.
Qed.

(** The lot and volume part of the sell loop is the shrink loop. *)
Lemma fifo_match_shrink (pup : Decimal) (l : list Lot) :
  forall remaining realized,
    (fst (fst (fifo_match pup l remaining realized)),
     snd (fst (fifo_match pup l remaining realized)))
    = fifo_shrink l remaining.
Proof.
  induction l as [|lot rest IH]; intros remaining realized; cbn.
  - reflexivity.
  - destruct (remaining >? Dec.zero)%dec; [|reflexivity].
    destruct (lot_vol lot - Dec.min (lot_vol lot) remaining <=? Dec.zero)%dec.
    + apply IH.
    + reflexivity.
Qed.

(** ** FIFO shape of a consumption *)

Lemma fifo_shrink_shape (l : list Lot) :
  forall to_reduce, head_consumed l (fst (fifo_shrink l to_reduce)).
Proof.
  induction l as [|lot rest IH]; intros to_reduce; cbn.
  - exists O. left. reflexivity.
  - destruct (to_reduce >? Dec.zero)%dec.
    + destruct (lot_vol lot - Dec.min (lot_vol lot) to_reduce <=? Dec.zero)%dec.
      * destruct (IH (to_reduce - Dec.min (lot_vol lot) to_reduce)%dec)
          as [k [H|(lot' & rest' & v & H1 & H2)]].
        -- exists (S k). left. exact H.
        -- exists (S k). right. exists lot', rest', v. split; assumption.
      * exists O. right. eexists lot, rest, _. split; reflexivity.
    + exists O. left. reflexivity.
Qed.

Lemma head_consumed_px (before after : list Lot) :
  head_consumed before after ->
  exists k, map lot_px after = skipn k (map lot_px before).
Proof.
  intros [k [H|(lot & rest & v & H1 & H2)]]; exists k; subst after.
  - symmetry. apply skipn_map.
  - rewrite skipn_map, H1. reflexivity.
Qed.


Lemma lots_after_sell (rec : Rec) (vol cost fee : Decimal) :
  exists rec',
    apply_sell rec vol cost fee = Ok rec'
    /\ lots rec' = fst (fifo_shrink (lots rec) vol)
    /\ buy_vol rec' = buy_vol rec
    /\ sell_vol rec' = (sell_vol rec + vol)%dec.
Proof.
  destruct (apply_sell_eq rec vol cost fee) as (pup & _ & ->).
  eexists. split; [reflexivity|].
  pose proof (fifo_match_shrink pup (lots rec) vol Dec.zero) as H.
  destruct (fifo_match pup (lots rec) vol Dec.zero) as [[l r] z].
  cbn in *. rewrite <- H. auto.
Qed.

Lemma lots_after_op (rec : Rec) (o : op) :
  exists rec',
    apply_op rec o = Ok rec'
    /\ match o with
       | Buy vol cost fee =>
           exists u, buy_unit_cost vol cost fee = Ok u
                     /\ lots rec' = lots rec ++ [mkLot vol u (buy_total cost fee)]
       | _ => head_consumed (lots rec) (lots rec')
       end.
Proof.
  destruct o as [vol cost fee|vol cost fee|t]; cbn [apply_op].
  - destruct (apply_buy_eq rec vol cost fee) as (u & Hu & ->).
    eexists. split; [reflexivity|]. exists u. split; [exact Hu|reflexivity].
  - destruct (lots_after_sell rec vol cost fee) as (rec' & -> & Hl & _).
    exists rec'. split; [reflexivity|]. rewrite Hl. apply fifo_shrink_shape.
  - rewrite shrink_eq. eexists. split; [reflexivity|].
    destruct (t >=? fst (total_remaining rec))%dec.
    + exists O. left. reflexivity.
    + cbn. apply fifo_shrink_shape.
Qed.

(** ** Pair normalisation *)

(** C5.  [parse_pair] maps "XXBTZUSD" to ("BTC","USD"), "XETHZUSD" to
    ("ETH","USD") and "ETH/USDT" to ("ETH","USDT"); on "ETHUSD", which the
    docstring lists among the handled formats, the four-character quote is
    tried first and the result is ("ET","HUSD"), not ("ETH","USD"). *)
Theorem parse_pair_examples :
  parse_pair "XXBTZUSD" = ("BTC", "USD")%string
  /\ parse_pair "XETHZUSD" = ("ETH", "USD")%string
  /\ parse_pair "ETH/USDT" = ("ETH", "USDT")%string
  /\ parse_pair "ETHUSD" = ("ET", "HUSD")%string
  /\ parse_pair "ETHUSD" <> ("ETH", "USD")%string.
Proof.
  repeat split; try reflexivity.
  vm_compute. discriminate.
Qed.

(** ** FIFO order *)

(** C1.  Buys of 2 at 10 and 3 at 20 followed by a sell of 3 for 90 with
    no fee realize 2*(30-10) + 1*(30-20) = 50 and leave the second lot
    with volume 2; and every sell removes lots from the head of the deque
    only, reducing the oldest remaining lot when it stops inside one. *)
Theorem fifo_order_sell :
  (exists agg r,
      aggregate_trades c1_trades = Ok agg
      /\ agg = [(("ETH", "USD")%string, r)]
      /\ (realized_pnl r
          == dz 2 * (dz 30 - dz 10) + dz 1 * (dz 30 - dz 20))%dec
      /\ (realized_pnl r == dz 50)%dec
      /\ lots r = [mkLot (dz 2) (dz 20) (dz 40)])
  /\ (forall rec vol cost fee,
         exists rec',
           apply_sell rec vol cost fee = Ok rec'
           /\ head_consumed (lots rec) (lots rec')).
Proof.
  split.
  - eexists. eexists. split; [vm_compute; reflexivity|].
    split; [reflexivity|]. repeat split; vm_compute; reflexivity.
  - intros rec vol cost fee.
    destruct (lots_after_op rec (Sell vol cost fee)) as (rec' & H & Hs).
    exists rec'. split; assumption.
Qed.

(** ** End-to-end scenario *)

Lemma avg_of_zero (total_ vol : Decimal) :
  coef vol = 0 -> avg_of total_ vol = Ok Dec.zero.
Proof. apply guarded_div_zero. Qed.

Lemma avg_of_ok (total_ vol : Decimal) : exists q, avg_of total_ vol = Ok q.
Proof. apply guarded_div_ok. Qed.

Lemma build_row_ok (prices : string -> option Decimal) (k : key) (r : Rec) :
  exists a b c,
    avg_of (buy_cost r) (buy_vol r) = Ok a
    /\ avg_of (sell_proceeds r) (sell_vol r) = Ok b
    /\ avg_of (Dec.sum (map lot_cost (lots r))) (Dec.sum (map lot_vol (lots r)))
       = Ok c
    /\ exists w,
         build_row prices k r = Ok w
         /\ avg_buy_price w = a
         /\ avg_sell_price w = b
         /\ avg_buy_price_of_remaining w = c
         /\ remaining_unsold_volume w = Dec.sum (map lot_vol (lots r))
         /\ realized_pnl_ w = realized_pnl r.
Proof.
  destruct (avg_of_ok (buy_cost r) (buy_vol r)) as [a Ha].
  destruct (avg_of_ok (sell_proceeds r) (sell_vol r)) as [b Hb].
  destruct (avg_of_ok (Dec.sum (map lot_cost (lots r)))
                      (Dec.sum (map lot_vol (lots r)))) as [c Hc].
  exists a, b, c. repeat split; try assumption.
  unfold build_row. rewrite Ha, Hb. cbn [bind]. rewrite Hc. cbn [bind].
  eexists. split; [reflexivity|].
  cbn [avg_buy_price avg_sell_price avg_buy_price_of_remaining
       remaining_unsold_volume realized_pnl_].
  auto.
Qed.

(** C2.  [buy 1.0 @ 9000 fee 9; sell 0.4 @ 10000 fee 4] on one pair gives
    average buy price 9009, average sell price 9990, remaining volume 0.6,
    average cost of the remainder 9009 and realized PnL
    0.4*(9990-9009) = 392.4, whatever the price table. *)
Theorem end_to_end_scenario :
  forall prices : string -> option Decimal,
  exists agg w,
    aggregate_trades c2_trades = Ok agg
    /\ build_rows_with_prices agg prices = Ok [w]
    /\ (avg_buy_price w == dz 9009)%dec
    /\ (avg_sell_price w == dz 9990)%dec
    /\ (remaining_unsold_volume w == mkDec 6 (-1))%dec
    /\ (avg_buy_price_of_remaining w == dz 9009)%dec
    /\ (realized_pnl_ w == mkDec 4 (-1) * (dz 9990 - dz 9009))%dec
    /\ (realized_pnl_ w == mkDec 3924 (-1))%dec.
Proof.
  intros prices.
  destruct (aggregate_trades c2_trades) as [agg|e] eqn:Hagg;
    [|vm_compute in Hagg; discriminate].
  vm_compute in Hagg.
  match type of Hagg with
  | Ok [(?k, ?r)] = _ =>
      destruct (build_row_ok prices k r)
        as (a & b & c & Ha & Hb & Hc & w & Hw & Ea & Eb & Ec & Er & Ep)
  end.
  injection Hagg as <-.
  vm_compute in Ha. vm_compute in Hb. vm_compute in Hc.
  injection Ha as <-. injection Hb as <-. injection Hc as <-.
  eexists. exists w. split; [reflexivity|].
  split.
  - unfold build_rows_with_prices.
    change (sorted_items [?e]) with [e].
    cbn [build_rows_from]. rewrite Hw. reflexivity.
  - rewrite Ea, Eb, Ec, Er, Ep. repeat split; vm_compute; reflexivity.
Qed.

(** ** Shrinking: frame and no-op *)

Lemma shrink_frame (rec : Rec) (t : Decimal) :
  exists rec',
    shrink_lots_fifo_to_target rec t = Ok rec'
    /\ realized_pnl rec' = realized_pnl rec
    /\ sell_vol rec' = sell_vol rec
    /\ sell_proceeds rec' = sell_proceeds rec
    /\ fees rec' = fees rec.
Proof.
  rewrite shrink_eq. eexists. split; [reflexivity|].
  destruct (t >=? fst (total_remaining rec))%dec; cbn; auto.
Qed.

(** C6.  Any run of shrink calls, whatever the targets, returns and
    leaves [realized_pnl], [sell_vol], [sell_proceeds] and [fees] as they
    were. *)
Theorem shrink_keeps_realized_accounting :
  forall (targets : list Decimal) (rec : Rec),
  exists rec',
    shrink_all rec targets = Ok rec'
    /\ realized_pnl rec' = realized_pnl rec
    /\ sell_vol rec' = sell_vol rec
    /\ sell_proceeds rec' = sell_proceeds rec
    /\ fees rec' = fees rec.
Proof.
  induction targets as [|t rest IH]; intros rec; cbn [shrink_all].
  - exists rec. auto.
  - destruct (shrink_frame rec t) as (r1 & -> & H1 & H2 & H3 & H4).
    cbn [bind]. destruct (IH r1) as (r2 & -> & K1 & K2 & K3 & K4).
    exists r2. repeat split; congruence.
Qed.



(** ** Zero volumes *)

Lemma fifo_shrink_zero (l : list Lot) (v : Decimal) :
  coef v = 0 -> fifo_shrink l v = (l, v).
Proof.
  intros H. destruct l as [|lot rest]; cbn; [reflexivity|].
  rewrite gtb_zero_false by lia. reflexivity.
Qed.

(** C9.  For a volume [vol] that is zero: [safe_div] by it returns
    [Decimal("0")] for every numerator; a buy of it returns and appends a
    lot of unit cost 0; a sell of it returns, has per-unit proceeds 0 and
    leaves the deque as it was; and each average of a report row whose
    volume denominator is [vol] is 0. *)
Theorem zero_volume_safe (vol : Decimal) :
  (vol == Dec.zero)%dec ->
  (forall n, safe_div n vol = Ok Dec.zero)
  /\ (forall rec cost fee,
         exists rec',
           apply_buy rec vol cost fee = Ok rec'
           /\ lots rec' = lots rec ++ [mkLot vol Dec.zero (buy_total cost fee)])
  /\ (forall rec cost fee,
         per_unit_proceeds_of (sell_total cost fee) vol = Ok Dec.zero
         /\ exists rec',
              apply_sell rec vol cost fee = Ok rec'
              /\ lots rec' = lots rec)
  /\ (forall prices k r,
         exists w,
           build_row prices k r = Ok w
           /\ (buy_vol r = vol -> avg_buy_price w = Dec.zero)
           /\ (sell_vol r = vol -> avg_sell_price w = Dec.zero)
           /\ (Dec.sum (map lot_vol (lots r)) = vol ->
               avg_buy_price_of_remaining w = Dec.zero)).
Proof.
  intros Hz. apply eqb_zero_iff in Hz.
  split; [|split; [|split]].
  - intros n. apply safe_div_zero. exact Hz.
  - intros rec cost fee.
    destruct (apply_buy_eq rec vol cost fee) as (u & Hu & ->).
    unfold buy_unit_cost in Hu. rewrite guarded_div_zero in Hu by exact Hz.
    injection Hu as <-. eexists. split; reflexivity.
  - intros rec cost fee.
    assert (Hp : per_unit_proceeds_of (sell_total cost fee) vol = Ok Dec.zero)
      by (apply guarded_div_zero; exact Hz).
    split; [exact Hp|].
    destruct (lots_after_sell rec vol cost fee) as (rec' & -> & Hl & _).
    exists rec'. split; [reflexivity|].
    rewrite Hl, fifo_shrink_zero by exact Hz. reflexivity.
  - intros prices k r.
    destruct (build_row_ok prices k r)
      as (a & b & c & Ha & Hb & Hc & w & Hw & Ea & Eb & Ec & _).
    exists w. split; [exact Hw|]. repeat split; intros E.
    + rewrite E, avg_of_zero in Ha by exact Hz. congruence.
    + rewrite E, avg_of_zero in Hb by exact Hz. congruence.
    + rewrite E, avg_of_zero in Hc by exact Hz. congruence.
Qed.

Lemma zero_volume_safe_witness :
  (mkDec 0 (-2) == Dec.zero)%dec
  /\ safe_div (dz 7) (mkDec 0 (-2)) = Ok Dec.zero
  /\ exists rec',
       apply_buy sample_rec (mkDec 0 (-2)) (dz 0) (dz 1) = Ok rec'
       /\ lots rec'
          = lots sample_rec
            ++ [mkLot (mkDec 0 (-2)) Dec.zero (buy_total (dz 0) (dz 1))].
Proof.
  split; [reflexivity|].
  destruct (zero_volume_safe (mkDec 0 (-2)) eq_refl) as (H1 & H2 & _).
  split; [apply H1 | apply H2].
Defined.

(** ** Unit costs are fixed at creation *)

Lemma skipn_app_suffix {A : Type} (j : nat) (l c : list A) :
  exists j', skipn j l ++ c = skipn j' (l ++ c).
Proof.
  destruct (Nat.le_gt_cases j (List.length l)) as [H|H].
  - exists j. rewrite skipn_app.
    replace (j - List.length l)%nat with O by lia. reflexivity.
  - exists (List.length l).
    rewrite skipn_all2 by lia.
    rewrite skipn_app, skipn_all, Nat.sub_diag. reflexivity.
Qed.

Lemma run_px (ops : list op) :
  forall s : tracked,
  exists s' k,
    run s ops = Ok s'
    /\ map lot_px (lots (fst s'))
       = skipn k (map lot_px (lots (fst s)) ++ created_px ops).
Proof.
  induction ops as [|o rest IH]; intros [rec x].
  - exists (rec, x), O. cbn. rewrite app_nil_r. auto.
  - cbn [run step].
    destruct (lots_after_op rec o) as (rec' & -> & Ho). cbn [bind].
    destruct (IH (rec', (x + removed_by rec o)%dec)) as (s' & k & -> & Hk).
    cbn [fst] in *. exists s'.
    destruct o as [vol cost fee|vol cost fee|t].
    + destruct Ho as (u & Hu & Hl). exists k. split; [reflexivity|].
      rewrite Hk, Hl, map_app. cbn [created_px map]. rewrite Hu.
      rewrite <- app_assoc. reflexivity.
    + apply head_consumed_px in Ho. destruct Ho as [j Hj].
      rewrite Hj in Hk.
      destruct (skipn_app_suffix j (map lot_px (lots rec)) (created_px rest))
        as [j' Hj'].
      exists (k + j')%nat. split; [reflexivity|].
      cbn [created_px]. rewrite Hk, Hj'. apply skipn_skipn.
    + apply head_consumed_px in Ho. destruct Ho as [j Hj].
      rewrite Hj in Hk.
      destruct (skipn_app_suffix j (map lot_px (lots rec)) (created_px rest))
        as [j' Hj'].
      exists (k + j')%nat. split; [reflexivity|].
      cbn [created_px]. rewrite Hk, Hj'. apply skipn_skipn.
Qed.

(** C10.  A buy appends one lot with the unit cost it computes and
    touches no other lot; a sell or a shrink drops lots from the head and
    at most rewrites the volume and total cost of the next one, keeping
    its unit cost.  Hence after any sequence of operations the unit costs
    in the deque are a suffix of the unit costs the lots were created
    with. *)
Theorem unit_cost_constant :
  (forall rec o,
      exists rec',
        apply_op rec o = Ok rec'
        /\ match o with
           | Buy vol cost fee =>
               exists u,
                 buy_unit_cost vol cost fee = Ok u
                 /\ lots rec' = lots rec ++ [mkLot vol u (buy_total cost fee)]
           | _ => head_consumed (lots rec) (lots rec')
           end)
  /\ (forall ops s,
         exists s' k,
           run s ops = Ok s'
           /\ map lot_px (lots (fst s'))
              = skipn k (map lot_px (lots (fst s)) ++ created_px ops)).
Proof.
  split.
  - apply lots_after_op.
  - apply run_px.
Qed.

(** ** The lot equation *)







(** ** Arithmetic on the grid is exact *)

Section Grid.

Variable k : Z.
Hypothesis Hk : 0 <= k.

Set Default Proof Using "Hk".

Lemma plain_spec (x : Decimal) :
  plain k x = true <-> - k <= expo x /\ 0 <= coef x.
Proof.
  unfold plain. rewrite andb_true_iff, !Z.leb_le. reflexivity.
Qed.

Lemma scaled_pos_iff (x : Decimal) :
  - k <= expo x -> (0 < scaled k x <-> 0 < coef x).
Proof.
  intros H. unfold scaled.
  pose proof (pow10_pos (expo x + k) ltac:(lia)). nia.
Qed.

Lemma scaled_nonneg_iff (x : Decimal) :
  - k <= expo x -> (0 <= scaled k x <-> 0 <= coef x).
Proof.
  intros H. unfold scaled.
  pose proof (pow10_pos (expo x + k) ltac:(lia)). nia.
Qed.

Lemma plain_scaled (x : Decimal) :
  plain k x = true -> - k <= expo x /\ 0 <= scaled k x.
Proof.
  intros H. apply plain_spec in H. destruct H as [He Hc].
  split; [exact He|]. apply scaled_nonneg_iff; assumption.
Qed.

Lemma plain_of_scaled (x : Decimal) :
  - k <= expo x -> 0 <= scaled k x -> plain k x = true.
Proof.
  intros He Hs. apply plain_spec. split; [exact He|].
  apply scaled_nonneg_iff; assumption.
Qed.

Lemma aligned_scaled (x y : Decimal) :
  - k <= expo x -> - k <= expo y ->
  fst (aligned x y) * 10 ^ (Z.min (expo x) (expo y) + k) = scaled k x
  /\ snd (aligned x y) * 10 ^ (Z.min (expo x) (expo y) + k) = scaled k y.
Proof.
  intros Hx Hy. unfold aligned, scaled. cbn [fst snd].
  rewrite <- !Z.mul_assoc, <- !Z.pow_add_r by lia.
  split; do 2 f_equal; lia.
Qed.

Ltac align x y a b p :=
  let Ha := fresh "Ha" in
  let Hb := fresh "Hb" in
  let Hp := fresh "Hp" in
  let E := fresh "E" in
  destruct (aligned_scaled x y ltac:(assumption) ltac:(assumption)) as [Ha Hb];
  assert (Hp : 0 < 10 ^ (Z.min (expo x) (expo y) + k)) by (apply pow10_pos; lia);
  set (p := 10 ^ (Z.min (expo x) (expo y) + k)) in *;
  destruct (aligned x y) as [a b] eqn:E; cbn [fst snd] in Ha, Hb.

Lemma ltb_scaled (x y : Decimal) :
  - k <= expo x -> - k <= expo y ->
  (x <? y)%dec = (scaled k x <? scaled k y).
Proof.
  intros Hx Hy. unfold Dec.ltb. align x y a b p.
  destruct (Z.ltb_spec a b), (Z.ltb_spec (scaled k x) (scaled k y));
    try reflexivity; nia.
Qed.

Lemma leb_scaled (x y : Decimal) :
  - k <= expo x -> - k <= expo y ->
  (x <=? y)%dec = (scaled k x <=? scaled k y).
Proof.
  intros Hx Hy. unfold Dec.leb. align x y a b p.
  destruct (Z.leb_spec a b), (Z.leb_spec (scaled k x) (scaled k y));
    try reflexivity; nia.
Qed.

Lemma eqb_scaled (x y : Decimal) :
  - k <= expo x -> - k <= expo y ->
  (x =? y)%dec = (scaled k x =? scaled k y).
Proof.
  intros Hx Hy. unfold Dec.eqb. align x y a b p.
  destruct (Z.eqb_spec a b), (Z.eqb_spec (scaled k x) (scaled k y));
    try reflexivity; nia.
Qed.

Lemma add_scaled (x y : Decimal) :
  - k <= expo x -> - k <= expo y ->
  Z.abs (scaled k x + scaled k y) < 10 ^ prec ->
  - k <= expo (x + y)%dec
  /\ scaled k (x + y)%dec = scaled k x + scaled k y.
Proof.
  intros Hx Hy Hs. unfold Dec.add. align x y a b p.
  rewrite fix_small.
  - cbn [expo coef]. split; [lia|].
    unfold scaled at 1. cbn [expo coef]. fold p. lia.
  - cbn [coef].
    assert (Z.abs (a + b) * p = Z.abs (scaled k x + scaled k y))
      by (rewrite <- Ha, <- Hb, <- Z.mul_add_distr_r, Z.abs_mul,
            (Z.abs_eq p) by lia; reflexivity).
    pose proof (Z.abs_nonneg (a + b)). nia.
Qed.

Lemma sub_scaled (x y : Decimal) :
  - k <= expo x -> - k <= expo y ->
  Z.abs (scaled k x - scaled k y) < 10 ^ prec ->
  - k <= expo (x - y)%dec
  /\ scaled k (x - y)%dec = scaled k x - scaled k y.
Proof.
  intros Hx Hy Hs. unfold Dec.sub. align x y a b p.
  rewrite fix_small.
  - cbn [expo coef]. split; [lia|].
    unfold scaled at 1. cbn [expo coef]. fold p. lia.
  - cbn [coef].
    assert (Z.abs (a - b) * p = Z.abs (scaled k x - scaled k y))
      by (rewrite <- Ha, <- Hb, <- Z.mul_sub_distr_r, Z.abs_mul,
            (Z.abs_eq p) by lia; reflexivity).
    pose proof (Z.abs_nonneg (a - b)). nia.
Qed.

Lemma min_scaled (a b : Decimal) :
  - k <= expo a -> - k <= expo b ->
  - k <= expo (Dec.min a b)
  /\ scaled k (Dec.min a b) = Z.min (scaled k a) (scaled k b).
Proof.
  intros Ha Hb. unfold Dec.min. rewrite (ltb_scaled b a) by assumption.
  destruct (Z.ltb_spec (scaled k b) (scaled k a)); split; try assumption; lia.
Qed.

Lemma scaled_zero : scaled k Dec.zero = 0.
Proof. reflexivity. Qed.

Lemma add_zero_scaled (x : Decimal) :
  - k <= expo x -> 0 <= scaled k x < 10 ^ prec ->
  - k <= expo (x + Dec.zero)%dec /\ scaled k (x + Dec.zero)%dec = scaled k x.
Proof.
  intros Hx Hs.
  destruct (add_scaled x Dec.zero) as [H1 H2]; try assumption.
  - cbn. lia.
  - rewrite scaled_zero. lia.
  - rewrite scaled_zero in H2. split; [exact H1|lia].
Qed.

(** *** Sums of plain volumes *)

Lemma total_cons (x : Decimal) (xs : list Decimal) :
  total k (x :: xs) = scaled k x + total k xs.
Proof. reflexivity. Qed.

Lemma held_cons (lot : Lot) (l : list Lot) :
  held k (lot :: l) = scaled k (lot_vol lot) + held k l.
Proof. reflexivity. Qed.

Lemma held_nil : held k [] = 0.
Proof. reflexivity. Qed.

Lemma total_nonneg (xs : list Decimal) :
  forallb (plain k) xs = true -> 0 <= total k xs.
Proof.
  induction xs as [|x r IH]; intros H.
  - unfold total; cbn [fold_right]. lia.
  - cbn [forallb] in H. apply andb_true_iff in H. destruct H as [Hx Hr].
    apply plain_scaled in Hx. specialize (IH Hr).
    rewrite total_cons. lia.
Qed.

Lemma sum_from_scaled (xs : list Decimal) :
  forall acc,
    forallb (plain k) xs = true ->
    - k <= expo acc -> 0 <= scaled k acc ->
    scaled k acc + total k xs < 10 ^ prec ->
    - k <= expo (fold_left Dec.add xs acc)
    /\ scaled k (fold_left Dec.add xs acc) = scaled k acc + total k xs.
Proof.
  induction xs as [|x r IH]; intros acc Hp He Hs Hb.
  - cbn [fold_left]. unfold total in *. cbn [fold_right] in *.
    split; [assumption|lia].
  - cbn [forallb] in Hp. cbn [fold_left]. rewrite total_cons in *.
    apply andb_true_iff in Hp. destruct Hp as [Hx Hr].
    pose proof (total_nonneg r Hr) as Hn.
    apply plain_scaled in Hx. destruct Hx as [Hxe Hxs].
    destruct (add_scaled acc x) as [H1 H2]; try assumption; [lia|].
    assert (Hb' : scaled k (acc + x)%dec + total k r < 10 ^ prec) by lia.
    assert (Hs' : 0 <= scaled k (acc + x)%dec) by lia.
    destruct (IH (acc + x)%dec Hr H1 Hs' Hb') as [K1 K2].
    split; [exact K1|lia].
Qed.

Lemma plain_lots_map (l : list Lot) :
  forallb (plain k) (map lot_vol l) = plain_lots k l.
Proof.
  unfold plain_lots. induction l as [|lot r IH]; cbn; [reflexivity|].
  rewrite IH. reflexivity.
Qed.

Lemma held_nonneg (l : list Lot) : plain_lots k l = true -> 0 <= held k l.
Proof.
  intros H. apply total_nonneg. rewrite plain_lots_map. exact H.
Qed.

Lemma total_remaining_scaled (r : Rec) :
  plain_lots k (lots r) = true ->
  held k (lots r) < 10 ^ prec ->
  - k <= expo (fst (total_remaining r))
  /\ scaled k (fst (total_remaining r)) = held k (lots r).
Proof.
  intros Hp Hb. unfold total_remaining, Dec.sum. cbn [fst].
  destruct (sum_from_scaled (map lot_vol (lots r)) Dec.zero) as [H1 H2].
  - rewrite plain_lots_map. exact Hp.
  - cbn. lia.
  - rewrite scaled_zero. lia.
  - rewrite scaled_zero. exact Hb.
  - rewrite scaled_zero in H2. split; [exact H1|exact H2].
Qed.

Lemma held_app (l1 l2 : list Lot) : held k (l1 ++ l2) = held k l1 + held k l2.
Proof.
  induction l1 as [|lot r IH]; cbn [app].
  - rewrite held_nil. lia.
  - rewrite !held_cons, IH. lia.
Qed.

Lemma plain_lots_app (l1 l2 : list Lot) :
  plain_lots k (l1 ++ l2) = plain_lots k l1 && plain_lots k l2.
Proof. apply forallb_app. Qed.

(** *** The FIFO loops on the grid *)

Lemma fifo_shrink_grid (l : list Lot) :
  forall rem,
    plain_lots k l = true ->
    held k l < 10 ^ prec ->
    - k <= expo rem ->
    0 <= scaled k rem < 10 ^ prec ->
    plain_lots k (fst (fifo_shrink l rem)) = true
    /\ held k (fst (fifo_shrink l rem))
       = held k l - Z.min (scaled k rem) (held k l).
Proof.
  induction l as [|lot rest IH]; intros rem Hp Hb He Hs.
  - cbn. split; [reflexivity|]. unfold held; cbn. lia.
  - cbn [fifo_shrink].
    pose proof Hp as Hp'. cbn in Hp'. apply andb_true_iff in Hp'.
    destruct Hp' as [Hlot Hrest].
    apply (plain_scaled) in Hlot. destruct Hlot as [Hle Hls].
    pose proof (held_nonneg rest Hrest) as Hn.
    assert (Hh : held k (lot :: rest) = scaled k (lot_vol lot) + held k rest)
      by reflexivity.
    destruct (rem >? Dec.zero)%dec eqn:Hr.
    + apply gtb_zero_iff, (scaled_pos_iff rem He) in Hr.
      destruct (min_scaled (lot_vol lot) rem Hle He) as [Hme Hms].
      set (use := Dec.min (lot_vol lot) rem) in *.
      destruct (sub_scaled (lot_vol lot) use Hle Hme) as [H1e H1s]; [lia|].
      destruct (sub_scaled rem use He Hme) as [H2e H2s]; [lia|].
      destruct (lot_vol lot - use <=? Dec.zero)%dec eqn:Hpop.
      * apply leb_zero_iff in Hpop.
        assert (scaled k (lot_vol lot - use)%dec <= 0).
        { destruct (Z.le_gt_cases (scaled k (lot_vol lot - use)%dec) 0) as [|G];
            [assumption|].
          apply (scaled_pos_iff _ H1e) in G. lia. }
        destruct (IH (rem - use)%dec) as [K1 K2]; try assumption; try lia.
        split; [exact K1|]. rewrite K2, Hh. lia.
      * cbn [fst].
        assert (G : 0 < scaled k (lot_vol lot - use)%dec).
        { apply (scaled_pos_iff _ H1e).
          destruct (Z.lt_ge_cases 0 (coef (lot_vol lot - use)%dec)) as [|G];
            [assumption|].
          assert ((lot_vol lot - use <=? Dec.zero)%dec = true)
            by (apply leb_zero_iff; lia).
          congruence. }
        split.
        -- cbn. rewrite Hrest, andb_true_r.
           apply (plain_of_scaled); [exact H1e|lia].
        -- change (scaled k (lot_vol lot - use)%dec + held k rest
                   = held k (lot :: rest)
                     - Z.min (scaled k rem) (held k (lot :: rest))).
           rewrite Hh. lia.
    + cbn [fst]. split; [exact Hp|].
      assert (scaled k rem <= 0).
      { destruct (Z.le_gt_cases (scaled k rem) 0) as [|G]; [assumption|].
        apply (scaled_pos_iff rem He), gtb_zero_iff in G. congruence. }
      rewrite Hh. lia.
Qed.

Lemma fifo_match_oversell (pup : Decimal) (l : list Lot) :
  forall rem realized,
    plain_lots k l = true ->
    - k <= expo rem ->
    held k l < scaled k rem < 10 ^ prec ->
    fst (fst (fifo_match pup l rem realized)) = []
    /\ snd (fifo_match pup l rem realized)
       = fold_left
           (fun acc lot =>
              (acc + (lot_vol lot * pup - lot_vol lot * lot_px lot))%dec)
           l realized.
Proof.
  induction l as [|lot rest IH]; intros rem realized Hp He Hs.
  - cbn. auto.
  - cbn [fifo_match fold_left].
    pose proof Hp as Hp'. cbn in Hp'. apply andb_true_iff in Hp'.
    destruct Hp' as [Hlot Hrest].
    apply (plain_scaled) in Hlot. destruct Hlot as [Hle Hls].
    pose proof (held_nonneg rest Hrest) as Hn.
    assert (Hh : held k (lot :: rest) = scaled k (lot_vol lot) + held k rest)
      by reflexivity.
    assert (Hr : (rem >? Dec.zero)%dec = true)
      by (apply gtb_zero_iff, (scaled_pos_iff rem He); lia).
    rewrite Hr.
    assert (Hm : Dec.min (lot_vol lot) rem = lot_vol lot).
    { unfold Dec.min. rewrite (ltb_scaled rem (lot_vol lot) He Hle).
      destruct (Z.ltb_spec (scaled k rem) (scaled k (lot_vol lot)));
        [lia|reflexivity]. }
    rewrite Hm, sub_self.
    assert (Hz : (mkDec 0 (expo (lot_vol lot)) <=? Dec.zero)%dec = true)
      by (apply leb_zero_iff; cbn; lia).
    rewrite Hz.
    destruct (sub_scaled rem (lot_vol lot) He Hle) as [H2e H2s]; [lia|].
    apply IH; try assumption. lia.
Qed.

(** *** One operation keeps the balance *)

Lemma step_inv (r : Rec) (x : Decimal) (o : op) :
  inv k (r, x) ->
  op_tame k r o = true ->
  exists r' x',
    apply_op r o = Ok r'
    /\ step (r, x) o = Ok (r', x')
    /\ inv k (r', x').
Proof.
  intros (Hp & Hbe & Hse & Hxe & Hs0 & Hx0 & Hb & Heq) Ht.
  pose proof (held_nonneg (lots r) Hp) as Hn.
  assert (Hheld : held k (lots r) < 10 ^ prec) by lia.
  destruct (total_remaining_scaled r Hp Hheld) as [Hce Hcs].
  destruct (add_zero_scaled x Hxe ltac:(lia)) as [Hx1 Hx2].
  unfold step. destruct o as [vol cost fee|vol cost fee|t]; cbn [apply_op removed_by].
  - cbn [op_tame] in Ht. apply andb_true_iff in Ht. destruct Ht as [Hv Hroom].
    apply Z.ltb_lt in Hroom.
    apply (plain_scaled) in Hv. destruct Hv as [Hve Hvs].
    destruct (apply_buy_eq r vol cost fee) as (u & _ & ->). cbn [bind].
    eexists. eexists. split; [reflexivity|]. split; [reflexivity|].
    destruct (add_scaled (buy_vol r) vol Hbe Hve) as [H1 H2]; [lia|].
    unfold inv. cbn [lots buy_vol sell_vol].
    rewrite plain_lots_app, Hp, held_app, H2, Hx2.
    repeat split; try assumption; try lia.
    + cbn. rewrite andb_true_r. apply (plain_of_scaled); assumption.
    + unfold held at 2. cbn. lia.
  - cbn [op_tame] in Ht. apply andb_true_iff in Ht. destruct Ht as [Hv Hcov].
    apply (plain_scaled) in Hv. destruct Hv as [Hve Hvs].
    rewrite (leb_scaled vol _ Hve Hce), Hcs in Hcov.
    apply Z.leb_le in Hcov.
    destruct (lots_after_sell r vol cost fee) as (r' & -> & Hl & Hbv & Hsv).
    cbn [bind]. exists r'. eexists. split; [reflexivity|]. split; [reflexivity|].
    destruct (fifo_shrink_grid (lots r) vol Hp Hheld Hve) as [K1 K2]; [lia|].
    destruct (add_scaled (sell_vol r) vol Hse Hve) as [H1 H2]; [lia|].
    unfold inv. rewrite Hl, Hbv, Hsv, H2, Hx2, K2.
    repeat split; try assumption; lia.
  - cbn [op_tame] in Ht.
    apply (plain_scaled) in Ht. destruct Ht as [Hte Hts].
    rewrite shrink_eq. cbn [bind]. unfold shrink_amount, d.
    unfold Dec.geb. rewrite (leb_scaled _ t Hce Hte), Hcs.
    eexists. eexists. split; [reflexivity|]. split; [reflexivity|].
    destruct (Z.leb_spec (held k (lots r)) (scaled k t)) as [Hge|Hlt].
    + unfold inv. rewrite Hx2. repeat split; try assumption; lia.
    + destruct (sub_scaled (fst (total_remaining r)) t Hce Hte)
        as [H1 H2]; [lia|].
      rewrite Hcs in H2.
      destruct (fifo_shrink_grid (lots r) (fst (total_remaining r) - t)%dec
                  Hp Hheld H1) as [K1 K2]; [lia|].
      destruct (add_scaled x (fst (total_remaining r) - t)%dec Hxe H1)
        as [J1 J2]; [lia|].
      unfold inv. cbn [set_lots lots buy_vol sell_vol].
      rewrite K2, J2, H2. repeat split; try assumption; lia.
Qed.

Lemma run_inv (ops : list op) :
  forall r x,
    inv k (r, x) ->
    tame k r ops = true ->
    exists s', run (r, x) ops = Ok s' /\ inv k s'.
Proof.
  induction ops as [|o rest IH]; intros r x Hi Ht.
  - exists (r, x). auto.
  - cbn [tame] in Ht. apply andb_true_iff in Ht. destruct Ht as [Ho Hrest].
    destruct (step_inv r x o Hi Ho) as (r' & x' & Ha & Hstep & Hi').
    rewrite Ha in Hrest. cbn [run]. rewrite Hstep. cbn [bind].
    apply IH; assumption.
Qed.

Lemma inv_balance (r : Rec) (x : Decimal) :
  inv k (r, x) ->
  (fst (total_remaining r) == buy_vol r - sell_vol r - x)%dec.
Proof.
  intros (Hp & Hbe & Hse & Hxe & Hs0 & Hx0 & Hb & Heq).
  pose proof (held_nonneg (lots r) Hp) as Hn.
  destruct (total_remaining_scaled r Hp ltac:(lia)) as [Hce Hcs].
  destruct (sub_scaled (buy_vol r) (sell_vol r) Hbe Hse) as [H1 H2]; [lia|].
  destruct (sub_scaled (buy_vol r - sell_vol r)%dec x H1 Hxe)
    as [H3 H4]; [lia|].
  rewrite (eqb_scaled _ _ Hce H3), Hcs, H4, H2.
  apply Z.eqb_eq. lia.
Qed.

Lemma inv_start : inv k start.
Proof.
  pose proof (pow10_pos prec ltac:(unfold prec; lia)) as Hpos.
  unfold inv, start, new_rec.
  cbn [lots buy_vol sell_vol plain_lots forallb].
  rewrite held_nil, scaled_zero.
  repeat split; try reflexivity; cbn [expo Dec.zero]; lia.
Qed.

End Grid.

Unset Default Proof Using.

Lemma tame_app (k : Z) (p rest : list op) :
  forall r, tame k r (p ++ rest) = true -> tame k r p = true.
Proof.
  induction p as [|o p' IH]; intros r H; [reflexivity|].
  cbn [app tame] in *. apply andb_true_iff in H. destruct H as [Ho Hr].
  rewrite Ho. cbn [andb].
  destruct (apply_op r o) as [r'|e]; [apply IH; exact Hr|discriminate].
Qed.

(** ** Balance of the remaining volume *)

(** C4, as the program has it.  Take operations whose volumes and targets
    are non-negative with at most [k] decimal places, with the bought
    total staying below [10^(28-k)] and no sell larger than the volume
    held in lots when it is applied.  After every prefix, the volume
    [total_remaining] reports equals [buy_vol - sell_vol] minus the volume
    removed by the shrinks. *)
Theorem remaining_volume_balance (k : Z) (ops p rest : list op) :
  0 <= k ->
  ops = p ++ rest ->
  tame k new_rec ops = true ->
  exists rec shrunk,
    run start p = Ok (rec, shrunk)
    /\ (fst (total_remaining rec) == buy_vol rec - sell_vol rec - shrunk)%dec.
Proof.
  intros Hk -> Ht. apply tame_app in Ht.
  destruct (run_inv k Hk p new_rec Dec.zero (inv_start k Hk) Ht)
    as ([rec shrunk] & Hrun & Hi).
  exists rec, shrunk. split; [exact Hrun|].
  apply (inv_balance k Hk). exact Hi.
Qed.

Lemma remaining_volume_balance_witness :
  0 <= 8
  /\ tame 8 new_rec grid_ops = true
  /\ exists rec shrunk,
       run start (firstn 4 grid_ops) = Ok (rec, shrunk)
       /\ (fst (total_remaining rec)
           == buy_vol rec - sell_vol rec - shrunk)%dec.
Proof.
  split; [lia|]. split; [vm_compute; reflexivity|].
  apply (remaining_volume_balance 8 grid_ops (firstn 4 grid_ops)
           (skipn 4 grid_ops)).
  - lia.
  - reflexivity.
  - vm_compute; reflexivity.
Defined.

(** C4 fails as stated.  A sell of 5 on the empty ledger leaves no lots
    while [buy_vol - sell_vol] is -5; and after buys of
    10000000000000000000000000000 and 5 and a sell of
    10000000000000000000000000000 the lots hold 5 while the rounded
    [buy_vol] gives [buy_vol - sell_vol] = 0. *)
Lemma remaining_volume_balance_counterexample :
  (exists rec shrunk,
      run start [Sell (dz 5) (dz 50) (dz 0)] = Ok (rec, shrunk)
      /\ fst (total_remaining rec) = dz 0
      /\ (buy_vol rec - sell_vol rec - shrunk)%dec = dz (-5)
      /\ (fst (total_remaining rec)
          =? buy_vol rec - sell_vol rec - shrunk)%dec = false)
  /\ (exists rec shrunk,
         run start [Buy (dz (10 ^ 28)) (dz 1) (dz 0);
                    Buy (dz 5) (dz 1) (dz 0);
                    Sell (dz (10 ^ 28)) (dz 2) (dz 0)] = Ok (rec, shrunk)
         /\ fst (total_remaining rec) = dz 5
         /\ coef (buy_vol rec - sell_vol rec - shrunk)%dec = 0
         /\ (fst (total_remaining rec)
             =? buy_vol rec - sell_vol rec - shrunk)%dec = false).
Proof.
  split; eexists; eexists; (split; [vm_compute; reflexivity|]);
    repeat split; vm_compute; reflexivity.
Qed.

(** ** Selling more than is held *)

(** C8, as the program has it.  Let the lots hold non-negative volumes
    with at most [k] decimal places, and let the sell volume have at most
    [k] decimal places, be below [10^(28-k)] and strictly exceed the
    volume held.  Then the sell returns, the program's own total agrees
    that the sell exceeds it, the deque is left empty with remaining
    volume 0, and [realized_pnl] grows by the sum over the lots of
    [lot_vol * per_unit_proceeds - lot_vol * lot_px], every lot matched at
    its full volume and nothing added for the excess. *)
Theorem oversell_empties_queue (k : Z) (rec : Rec) (vol cost fee : Decimal) :
  0 <= k ->
  plain_lots k (lots rec) = true ->
  plain k vol = true ->
  held k (lots rec) < scaled k vol < 10 ^ prec ->
  (vol >? fst (total_remaining rec))%dec = true
  /\ exists rec' pup,
       per_unit_proceeds_of (sell_total cost fee) vol = Ok pup
       /\ apply_sell rec vol cost fee = Ok rec'
       /\ lots rec' = []
       /\ fst (total_remaining rec') = Dec.zero
       /\ realized_pnl rec'
          = (realized_pnl rec + matched_pnl pup (lots rec))%dec.
Proof.
  intros Hk Hp Hv Hs.
  apply (plain_scaled k Hk) in Hv. destruct Hv as [Hve Hvs].
  destruct (total_remaining_scaled k Hk rec Hp ltac:(lia)) as [Hce Hcs].
  split.
  - unfold Dec.gtb. rewrite (ltb_scaled k Hk _ vol Hce Hve), Hcs.
    apply Z.ltb_lt. lia.
  - destruct (apply_sell_eq rec vol cost fee) as (pup & Hpup & Hsell).
    destruct (fifo_match_oversell k Hk pup (lots rec) vol Dec.zero Hp Hve Hs)
      as [Hl Hr].
    destruct (fifo_match pup (lots rec) vol Dec.zero) as [[l r] z].
    cbn [fst snd] in Hl, Hr. subst l z.
    eexists. exists pup. split; [exact Hpup|]. split; [exact Hsell|].
    repeat split.
Qed.

Lemma oversell_empties_queue_witness :
  0 <= 8
  /\ plain_lots 8 (lots sample_rec) = true
  /\ plain 8 (mkDec 75 (-1)) = true
  /\ held 8 (lots sample_rec) < scaled 8 (mkDec 75 (-1)) < 10 ^ prec
  /\ exists rec' pup,
       per_unit_proceeds_of (sell_total (dz 150) (dz 0)) (mkDec 75 (-1)) = Ok pup
       /\ apply_sell sample_rec (mkDec 75 (-1)) (dz 150) (dz 0) = Ok rec'
       /\ lots rec' = []
       /\ fst (total_remaining rec') = Dec.zero
       /\ realized_pnl rec'
          = (realized_pnl sample_rec + matched_pnl pup (lots sample_rec))%dec.
Proof.
  assert (H8 : 0 <= 8) by lia.
  assert (Hb : held 8 (lots sample_rec) < scaled 8 (mkDec 75 (-1)) < 10 ^ prec)
    by (vm_compute; split; reflexivity).
  split; [exact H8|]. split; [reflexivity|]. split; [reflexivity|].
  split; [exact Hb|].
  apply (oversell_empties_queue 8 sample_rec (mkDec 75 (-1)) (dz 150) (dz 0)
           H8 eq_refl eq_refl Hb).
Defined.

(** C8 fails as stated.  With lots of 1 and 10000000000000000000000000002
    and a sell of 10000000000000000000000000006, the sell exceeds the
    volume held, yet [remaining] is rounded to 1E+28 after the first lot
    and the second lot is kept with volume 2. *)
Lemma oversell_counterexample :
  exists rec rec',
    run start [Buy (dz 1) (dz 1) (dz 0);
               Buy (dz (10 ^ 28 + 2)) (dz 1) (dz 0)] = Ok (rec, Dec.zero)
    /\ map lot_vol (lots rec) = [dz 1; dz (10 ^ 28 + 2)]
    /\ (dz (10 ^ 28 + 6) >? fst (total_remaining rec))%dec = true
    /\ 1 + (10 ^ 28 + 2) < 10 ^ 28 + 6
    /\ apply_sell rec (dz (10 ^ 28 + 6)) (dz 1) (dz 0) = Ok rec'
    /\ map lot_vol (lots rec') = [dz 2]
    /\ lots rec' <> [].
Proof.
  eexists. eexists.
  split; [vm_compute; reflexivity|].
  split; [vm_compute; reflexivity|].
  split; [vm_compute; reflexivity|].
  split; [vm_compute; reflexivity|].
  split; [vm_compute; reflexivity|].
  split; [vm_compute; reflexivity|].
  vm_compute. discriminate.
Qed.

(** * Further properties of the ledger *)

(** ** Lots keep a positive volume *)

Lemma leb_zero_false_gtb (x : Decimal) :
  (x <=? Dec.zero)%dec = false -> (x >? Dec.zero)%dec = true.
Proof.
  intros H. apply gtb_zero_iff.
  destruct (Z.lt_ge_cases 0 (coef x)) as [G|G]; [exact G|].
  assert ((x <=? Dec.zero)%dec = true) by (apply leb_zero_iff; lia).
  congruence.
Qed.

Lemma fifo_shrink_positive (l : list Lot) :
  forall v,
    positive_lots l = true -> positive_lots (fst (fifo_shrink l v)) = true.
Proof.
  induction l as [|lot rest IH]; intros v Hp; [reflexivity|].
  cbn [fifo_shrink].
  pose proof Hp as Hp'. cbn [positive_lots forallb] in Hp'.
  apply andb_true_iff in Hp'. destruct Hp' as [_ Hrest].
  destruct (v >? Dec.zero)%dec; [|exact Hp].
  destruct (lot_vol lot - Dec.min (lot_vol lot) v <=? Dec.zero)%dec eqn:E.
  - apply IH. exact Hrest.
  - cbn [fst positive_lots forallb lot_vol].
    rewrite (leb_zero_false_gtb _ E). exact Hrest.
Qed.

Lemma step_positive (rec : Rec) (o : op) :
  positive_buy o = true ->
  positive_lots (lots rec) = true ->
  exists rec',
    apply_op rec o = Ok rec' /\ positive_lots (lots rec') = true.
Proof.
  intros Ho Hp. destruct o as [vol cost fee|vol cost fee|t]; cbn [apply_op].
  - destruct (apply_buy_eq rec vol cost fee) as (u & _ & ->).
    eexists. split; [reflexivity|]. cbn [lots].
    unfold positive_lots in *. rewrite forallb_app, Hp.
    cbn [forallb lot_vol positive_buy] in *. rewrite Ho. reflexivity.
  - destruct (lots_after_sell rec vol cost fee) as (rec' & -> & Hl & _).
    exists rec'. split; [reflexivity|]. rewrite Hl.
    apply fifo_shrink_positive. exact Hp.
  - rewrite shrink_eq. eexists. split; [reflexivity|].
    destruct (t >=? fst (total_remaining rec))%dec; [exact Hp|].
    cbn [set_lots lots]. apply fifo_shrink_positive. exact Hp.
Qed.

(** X1.  When every buy has a positive volume, every lot in the deque
    has a positive volume after any sequence of buys, sells and shrinks:
    a lot whose volume reaches zero or less is popped, never kept. *)
Theorem lots_stay_positive (ops : list op) :
  forall s : tracked,
    forallb positive_buy ops = true ->
    positive_lots (lots (fst s)) = true ->
    exists s',
      run s ops = Ok s' /\ positive_lots (lots (fst s')) = true.
Proof.
  induction ops as [|o rest IH]; intros [rec x] Hb Hp.
  - exists (rec, x). auto.
  - cbn [forallb] in Hb. apply andb_true_iff in Hb. destruct Hb as [Ho Hr].
    cbn [run step fst] in *.
    destruct (step_positive rec o Ho Hp) as (rec' & -> & Hp'). cbn [bind].
    apply IH; assumption.
Qed.

Lemma lots_stay_positive_witness :
  forallb positive_buy grid_ops = true
  /\ positive_lots (lots (fst start)) = true
  /\ exists s',
       run start grid_ops = Ok s' /\ positive_lots (lots (fst s')) = true.
Proof.
  split; [reflexivity|]. split; [reflexivity|].
  apply (lots_stay_positive grid_ops start); reflexivity.
Defined.

(** ** Length of the deque *)



(** ** Shrinking and selling on the grid *)

Section GridOperations.

Variable k : Z.
Hypothesis Hk : 0 <= k.

Lemma shrink_on_grid (rec : Rec) (t : Decimal) :
  plain_lots k (lots rec) = true ->
  held k (lots rec) < 10 ^ prec ->
  plain k t = true ->
  (t <? fst (total_remaining rec))%dec = true ->
  exists rec',
    shrink_lots_fifo_to_target rec t = Ok rec'
    /\ plain_lots k (lots rec') = true
    /\ held k (lots rec') = scaled k t.
Proof.
  intros Hp Hb Ht Hlt.
  pose proof (held_nonneg k Hk (lots rec) Hp) as Hn.
  destruct (total_remaining_scaled k Hk rec Hp Hb) as [Hce Hcs].
  apply (plain_scaled k Hk) in Ht. destruct Ht as [Hte Hts].
  rewrite (ltb_scaled k Hk t _ Hte Hce), Hcs in Hlt. apply Z.ltb_lt in Hlt.
  rewrite shrink_eq. eexists. split; [reflexivity|].
  unfold Dec.geb. rewrite (leb_scaled k Hk _ t Hce Hte), Hcs.
  destruct (Z.leb_spec (held k (lots rec)) (scaled k t)) as [G|_]; [lia|].
  destruct (sub_scaled k Hk (fst (total_remaining rec)) t Hce Hte)
    as [H1 H2]; [lia|].
  rewrite Hcs in H2.
  destruct (fifo_shrink_grid k Hk (lots rec) (fst (total_remaining rec) - t)%dec
              Hp Hb H1) as [K1 K2]; [lia|].
  cbn [set_lots lots]. split; [exact K1|]. rewrite K2, H2. lia.
Qed.

End GridOperations.

(** X3.  On lots with non-negative volumes of at most [k] decimal places
    and fewer than 28 digits in all, a shrink to a non-negative target of
    at most [k] decimal places that is below the volume held leaves
    exactly the target as remaining volume, and a second shrink to the
    same target changes nothing. *)
Theorem shrink_reaches_target (k : Z) (rec : Rec) (t : Decimal) :
  0 <= k ->
  plain_lots k (lots rec) = true ->
  held k (lots rec) < 10 ^ prec ->
  plain k t = true ->
  (t <? fst (total_remaining rec))%dec = true ->
  exists rec',
    shrink_lots_fifo_to_target rec t = Ok rec'
    /\ (fst (total_remaining rec') == t)%dec
    /\ shrink_lots_fifo_to_target rec' t = Ok rec'.
Proof.
  intros Hk Hp Hb Ht Hlt.
  destruct (shrink_on_grid k Hk rec t Hp Hb Ht Hlt) as (rec' & Hs & Hp' & Hh).
  pose proof (held_nonneg k Hk (lots rec) Hp) as Hn.
  destruct (total_remaining_scaled k Hk rec Hp Hb) as [Hce Hcs].
  pose proof (plain_scaled k Hk t Ht) as [Hte Hts].
  rewrite (ltb_scaled k Hk t _ Hte Hce), Hcs in Hlt. apply Z.ltb_lt in Hlt.
  destruct (total_remaining_scaled k Hk rec' Hp' ltac:(lia)) as [Hce' Hcs'].
  exists rec'. split; [exact Hs|]. split.
  - rewrite (eqb_scaled k Hk _ t Hce' Hte), Hcs', Hh. apply Z.eqb_refl.
  - rewrite shrink_eq. unfold Dec.geb.
    rewrite (leb_scaled k Hk _ t Hce' Hte), Hcs', Hh, Z.leb_refl. reflexivity.
Qed.

Lemma shrink_reaches_target_witness :
  0 <= 8
  /\ plain_lots 8 (lots sample_rec) = true
  /\ held 8 (lots sample_rec) < 10 ^ prec
  /\ plain 8 (mkDec 15 (-1)) = true
  /\ (mkDec 15 (-1) <? fst (total_remaining sample_rec))%dec = true
  /\ exists rec',
       shrink_lots_fifo_to_target sample_rec (mkDec 15 (-1)) = Ok rec'
       /\ (fst (total_remaining rec') == mkDec 15 (-1))%dec
       /\ shrink_lots_fifo_to_target rec' (mkDec 15 (-1)) = Ok rec'.
Proof.
  assert (H8 : 0 <= 8) by lia.
  assert (Hb : held 8 (lots sample_rec) < 10 ^ prec) by (vm_compute; reflexivity).
  split; [exact H8|]. split; [reflexivity|]. split; [exact Hb|].
  split; [reflexivity|]. split; [reflexivity|].
  apply (shrink_reaches_target 8 sample_rec (mkDec 15 (-1)) H8 eq_refl Hb
           eq_refl eq_refl).
Defined.

(** X4.  On the same kind of lots, a sell whose volume has at most [k]
    decimal places and does not exceed the volume held lowers the
    remaining volume by exactly the volume sold. *)
Theorem sell_within_inventory (k : Z) (rec : Rec) (vol cost fee : Decimal) :
  0 <= k ->
  plain_lots k (lots rec) = true ->
  held k (lots rec) < 10 ^ prec ->
  plain k vol = true ->
  (vol <=? fst (total_remaining rec))%dec = true ->
  exists rec',
    apply_sell rec vol cost fee = Ok rec'
    /\ plain_lots k (lots rec') = true
    /\ (fst (total_remaining rec') == fst (total_remaining rec) - vol)%dec.
Proof.
  intros Hk Hp Hb Hv Hle.
  pose proof (held_nonneg k Hk (lots rec) Hp) as Hn.
  destruct (total_remaining_scaled k Hk rec Hp Hb) as [Hce Hcs].
  pose proof (plain_scaled k Hk vol Hv) as [Hve Hvs].
  rewrite (leb_scaled k Hk vol _ Hve Hce), Hcs in Hle. apply Z.leb_le in Hle.
  destruct (lots_after_sell rec vol cost fee) as (rec' & Hs & Hl & _).
  destruct (fifo_shrink_grid k Hk (lots rec) vol Hp Hb Hve) as [K1 K2]; [lia|].
  rewrite <- Hl in K1, K2.
  destruct (total_remaining_scaled k Hk rec' K1 ltac:(lia)) as [Hce' Hcs'].
  destruct (sub_scaled k Hk (fst (total_remaining rec)) vol Hce Hve)
    as [H1 H2]; [lia|].
  exists rec'. split; [exact Hs|]. split; [exact K1|].
  rewrite (eqb_scaled k Hk _ _ Hce' H1), Hcs', H2, Hcs, K2.
  apply Z.eqb_eq. lia.
Qed.

Lemma sell_within_inventory_witness :
  0 <= 8
  /\ plain_lots 8 (lots sample_rec) = true
  /\ held 8 (lots sample_rec) < 10 ^ prec
  /\ plain 8 (mkDec 25 (-1)) = true
  /\ (mkDec 25 (-1) <=? fst (total_remaining sample_rec))%dec = true
  /\ exists rec',
       apply_sell sample_rec (mkDec 25 (-1)) (dz 100) (dz 1) = Ok rec'
       /\ plain_lots 8 (lots rec') = true
       /\ (fst (total_remaining rec')
           == fst (total_remaining sample_rec) - mkDec 25 (-1))%dec.
Proof.
  assert (H8 : 0 <= 8) by lia.
  assert (Hb : held 8 (lots sample_rec) < 10 ^ prec) by (vm_compute; reflexivity).
  split; [exact H8|]. split; [reflexivity|]. split; [exact Hb|].
  split; [reflexivity|]. split; [reflexivity|].
  apply (sell_within_inventory 8 sample_rec (mkDec 25 (-1)) (dz 100) (dz 1)
           H8 eq_refl Hb eq_refl eq_refl).
Defined.

(** * Further properties of the book *)

(** ** The dictionary *)

Lemma key_eqb_eq (a b : key) : key_eqb a b = true <-> a = b.
Proof.
  destruct a as [a1 a2], b as [b1 b2]. unfold key_eqb. cbn [fst snd].
  rewrite andb_true_iff, !String.eqb_eq. split.
  - intros [-> ->]. reflexivity.
  - intros E. injection E as -> ->. auto.
Qed.

Lemma key_eqb_refl (a : key) : key_eqb a a = true.
Proof. apply key_eqb_eq. reflexivity. Qed.

Lemma lookup_store_same (k : key) (r : Rec) (agg : book) :
  lookup k (store k r agg) = Some r.
Proof.
  induction agg as [|[k' r'] rest IH]; cbn [store lookup].
  - rewrite key_eqb_refl. reflexivity.
  - destruct (key_eqb k k') eqn:E; cbn [lookup].
    + rewrite key_eqb_refl. reflexivity.
    + rewrite E. exact IH.
Qed.

Lemma lookup_store_other (k k' : key) (r : Rec) (agg : book) :
  key_eqb k' k = false -> lookup k (store k' r agg) = lookup k agg.
Proof.
  intros Hne.
  assert (Hne' : key_eqb k k' = false).
  { destruct (key_eqb k k') eqn:E; [|reflexivity].
    apply key_eqb_eq in E. subst. rewrite key_eqb_refl in Hne. discriminate. }
  induction agg as [|[k2 r2] rest IH]; cbn [store lookup].
  - rewrite Hne'. reflexivity.
  - destruct (key_eqb k' k2) eqn:E; cbn [lookup].
    + apply key_eqb_eq in E. subst k2. rewrite Hne'. reflexivity.
    + destruct (key_eqb k k2); [reflexivity|exact IH].
Qed.



(** One iteration of the loop, with the quote filter switched off as the
    configuration has it. *)
Lemma aggregate_step_eq (agg : book) (t : trade) :
  aggregate_step agg t
  = match parse_trade t with
    | None => Ok agg
    | Some pt =>
        let k := parse_pair (p_pair_name pt) in
        rec' <- apply_trade (touch (get_rec k agg) (p_pair_name pt) (p_ts pt)) pt ;;
        Ok (store k rec' agg)
    end.
Proof.
  unfold aggregate_step. destruct (parse_trade t) as [pt|]; [|reflexivity].
  destruct (parse_pair (p_pair_name pt)) as [base quote]. reflexivity.
Qed.

Lemma aggregate_step_cases (agg : book) (t : trade) :
  match trade_key t with
  | None => aggregate_step agg t = Ok agg
  | Some k =>
      exists pt rec',
        parse_trade t = Some pt
        /\ apply_trade (touch (get_rec k agg) (p_pair_name pt) (p_ts pt)) pt
           = Ok rec'
        /\ aggregate_step agg t = Ok (store k rec' agg)
  end.
Proof.
  rewrite aggregate_step_eq. unfold trade_key.
  destruct (parse_trade t) as [pt|]; [|reflexivity].
  cbn zeta.
  destruct (apply_trade_ok
              (touch (get_rec (parse_pair (p_pair_name pt)) agg)
                     (p_pair_name pt) (p_ts pt)) pt) as [rec' Hr].
  exists pt, rec'. rewrite Hr. auto.
Qed.

(** ** Keys of the book *)



(** ** Pairs do not interfere *)

Lemma get_rec_agree (k : key) (agg1 agg2 : book) :
  lookup k agg1 = lookup k agg2 -> get_rec k agg1 = get_rec k agg2.
Proof. unfold get_rec. intros ->. reflexivity. Qed.

Lemma aggregate_from_independent (k : key) (trades : list trade) :
  forall agg1 agg2,
    lookup k agg1 = lookup k agg2 ->
    exists a1 a2,
      aggregate_from agg1 trades = Ok a1
      /\ aggregate_from agg2 (filter (for_key k) trades) = Ok a2
      /\ lookup k a1 = lookup k a2.
Proof.
  induction trades as [|t rest IH]; intros agg1 agg2 Hl;
    cbn [aggregate_from filter].
  - exists agg1, agg2. auto.
  - pose proof (aggregate_step_cases agg1 t) as H1.
    pose proof (aggregate_step_cases agg2 t) as H2.
    unfold for_key. destruct (trade_key t) as [kt|] eqn:Ek.
    + destruct H1 as (pt1 & r1 & Hp1 & Ha1 & ->).
      destruct H2 as (pt2 & r2 & Hp2 & Ha2 & Hs2).
      cbn [bind].
      destruct (key_eqb kt k) eqn:E.
      * apply key_eqb_eq in E. subst kt.
        assert (pt2 = pt1) by congruence. subst pt2.
        rewrite (get_rec_agree k agg1 agg2 Hl) in Ha1.
        assert (r2 = r1) by congruence. subst r2.
        cbn [aggregate_from]. rewrite Hs2. cbn [bind].
        apply IH. rewrite !lookup_store_same. reflexivity.
      * apply IH. rewrite lookup_store_other by exact E. exact Hl.
    + rewrite H1. cbn [bind]. apply IH. exact Hl.
Qed.

(** X6.  The record a pair ends with depends on that pair's rows only:
    aggregating all the rows, or only the rows routed to the pair, gives
    the same record for it (or none in both cases). *)
Theorem pairs_are_independent (k : key) (trades : list trade) :
  exists agg agg_k,
    aggregate_trades trades = Ok agg
    /\ aggregate_trades (filter (for_key k) trades) = Ok agg_k
    /\ lookup k agg = lookup k agg_k.
Proof.
  apply (aggregate_from_independent k trades [] []). reflexivity.
Qed.

(** ** The report rows *)





Lemma insert_sorted_perm (e : key * Rec) (l : book) :
  Permutation (insert_sorted e l) (e :: l).
Proof.
  induction l as [|h t IH]; cbn [insert_sorted].
  - apply Permutation_refl.
  - destruct (key_leb (fst e) (fst h)).
    + apply Permutation_refl.
    + eapply Permutation_trans; [apply perm_skip; exact IH|apply perm_swap].
Qed.


Lemma sorted_items_perm (agg : book) : Permutation (sorted_items agg) agg.
Proof.
  unfold sorted_items. induction agg as [|e rest IH]; cbn [fold_right].
  - apply Permutation_refl.
  - eapply Permutation_trans; [apply insert_sorted_perm|].
    apply perm_skip. exact IH.
Qed.




(** ** Rows without a price *)

(** X8.  When the price table has no entry under the record's pair name,
    the row reports a current price of 0 and an unrealized PnL of 0,
    whatever lots remain. *)
Theorem row_without_price (prices : string -> option Decimal) (k : key)
  (r : Rec) :
  match pair_name r with
  | Some n => prices n = None
  | None => True
  end ->
  exists w,
    build_row prices k r = Ok w
    /\ current_price w = Dec.zero
    /\ unrealized_pnl w = Dec.zero.
Proof.
  intros Hp.
  destruct (avg_of_ok (buy_cost r) (buy_vol r)) as [a Ha].
  destruct (avg_of_ok (sell_proceeds r) (sell_vol r)) as [b Hb].
  destruct (avg_of_ok (Dec.sum (map lot_cost (lots r)))
                      (Dec.sum (map lot_vol (lots r)))) as [c Hc].
  unfold build_row. rewrite Ha, Hb. cbn [bind]. rewrite Hc. cbn [bind].
  eexists. split; [reflexivity|].
  cbn [current_price unrealized_pnl].
  destruct (pair_name r) as [n|]; [rewrite Hp|]; split; reflexivity.
Qed.

Lemma row_without_price_witness :
  exists w,
    build_row no_prices ("ETH", "USD")%string sample_rec = Ok w
    /\ current_price w = Dec.zero
    /\ unrealized_pnl w = Dec.zero.
Proof.
  apply (row_without_price no_prices ("ETH", "USD")%string sample_rec).
  reflexivity.
Defined.

(** * Further properties of [parse_pair] *)

Lemma substring_length (s : string) :
  forall n m,
    (n + m <= String.length s)%nat -> String.length (substring n m s) = m.
Proof.
  induction s as [|c s IH]; intros n m H; cbn [String.length] in H.
  - assert (n = O) by lia. assert (m = O) by lia. subst. reflexivity.
  - destruct n as [|n'].
    + destruct m as [|m']; [reflexivity|].
      cbn [substring String.length]. rewrite IH by lia. reflexivity.
    + cbn [substring]. apply IH. lia.
Qed.

Lemma nonempty_length (s : string) :
  nonempty s = true <-> (1 <= String.length s)%nat.
Proof.
  destruct s; cbn [nonempty String.length]; split; intros H;
    try reflexivity; try discriminate; lia.
Qed.

Lemma drop_last_length (n : nat) (s : string) :
  String.length (drop_last n s) = (String.length s - n)%nat.
Proof. unfold drop_last, slice_to. apply substring_length. lia. Qed.

Lemma take_last_length (n : nat) (s : string) :
  (n <= String.length s)%nat -> String.length (take_last n s) = n.
Proof.
  intros H. unfold take_last, slice_from.
  rewrite substring_length by lia. lia.
Qed.

Lemma slice_from_length (i : nat) (s : string) :
  String.length (slice_from i s) = (String.length s - i)%nat.
Proof.
  unfold slice_from.
  destruct (Nat.le_gt_cases i (String.length s)) as [H|H].
  - apply substring_length. lia.
  - replace (String.length s - i)%nat with O by lia.
    clear H. revert i. induction s as [|c s IH]; intros [|i]; try reflexivity.
    cbn [substring]. apply IH.
Qed.

(** X9.  Let [p] be the identifier with slashes removed, in upper case
    and with XBT renamed.  When [p] has at least four characters,
    [parse_pair] returns a non-empty base and a quote of three or four
    characters; when it has fewer, it returns [p] whole as the base with
    an empty quote. *)
Theorem parse_pair_shape (pair : string) :
  ((4 <= String.length (clean_pair pair))%nat ->
   (1 <= String.length (fst (parse_pair pair)))%nat
   /\ (3 <= String.length (snd (parse_pair pair)) <= 4)%nat)
  /\ ((String.length (clean_pair pair) < 4)%nat ->
      parse_pair pair = (clean_pair pair, ""%string)).
Proof.
  unfold parse_pair. fold (clean_pair pair).
  destruct (nonempty pair) eqn:Hne; cbn [negb].
  2:{ destruct pair; [|discriminate]. split; [cbn; lia|reflexivity]. }
  set (p := clean_pair pair).
  destruct (contains "Z" p && (7 <=? String.length p)%nat) eqn:Hz.
  - apply andb_true_iff in Hz. destruct Hz as [_ H7]. apply Nat.leb_le in H7.
    destruct (rfind "Z" p) as [i|].
    + destruct (nonempty (slice_to i p) && nonempty (slice_from (i + 1) p)
                && (3 <=? String.length (slice_from (i + 1) p))%nat
                && (String.length (slice_from (i + 1) p) <=? 4)%nat) eqn:Hc.
      * apply andb_true_iff in Hc. destruct Hc as [Hc H4].
        apply andb_true_iff in Hc. destruct Hc as [Hc H3].
        apply andb_true_iff in Hc. destruct Hc as [Hl _].
        apply Nat.leb_le in H3, H4. apply nonempty_length in Hl.
        split; [|lia]. intros _. cbn [fst snd]. split; [|lia].
        destruct (prefix "X" (slice_to i p)
                  && (2 <=? String.length (slice_to i p))%nat) eqn:Hx;
          [|exact Hl].
        apply andb_true_iff in Hx. destruct Hx as [_ H2].
        apply Nat.leb_le in H2. rewrite slice_from_length. lia.
      * split; [|lia]. intros _.
        destruct (Nat.ltb_spec 4 (String.length p)); [|lia].
        cbn [fst snd]. rewrite drop_last_length, take_last_length by lia. lia.
    + split; [|lia]. intros _.
      destruct (Nat.ltb_spec 4 (String.length p)); [|lia].
      cbn [fst snd]. rewrite drop_last_length, take_last_length by lia. lia.
  - split.
    + intros H4.
      destruct (Nat.ltb_spec 4 (String.length p)).
      * cbn [fst snd]. rewrite drop_last_length, take_last_length by lia. lia.
      * destruct (Nat.ltb_spec 3 (String.length p)); [|lia].
        cbn [fst snd]. rewrite drop_last_length, take_last_length by lia. lia.
    + intros H4.
      destruct (Nat.ltb_spec 4 (String.length p)); [lia|].
      destruct (Nat.ltb_spec 3 (String.length p)); [lia|reflexivity].
Qed.

Lemma parse_pair_shape_witness :
  ((1 <= String.length (fst (parse_pair "sol/usdc")))%nat
   /\ (3 <= String.length (snd (parse_pair "sol/usdc")) <= 4)%nat)
  /\ parse_pair "ab/c" = ("ABC"%string, ""%string).
Proof.
  split.
  - apply (proj1 (parse_pair_shape "sol/usdc")). vm_compute. lia.
  - apply (proj2 (parse_pair_shape "ab/c")). vm_compute. lia.
Defined.

(** ** Letter case *)









(** * The private endpoint *)

(** ** Detection of rate limit errors *)

Lemma lower_app (a b : string) :
  lower (a ++ b) = (lower a ++ lower b)%string.
Proof.
  induction a as [|c a IH]; cbn [append lower]; [reflexivity|].
  rewrite IH. reflexivity.
Qed.

Lemma prefix_app (n a b : string) :
  prefix n a = true -> prefix n (a ++ b) = true.
Proof.
  revert n. induction a as [|c a IH]; intros n H.
  - destruct n; [|discriminate]. destruct b; reflexivity.
  - destruct n as [|d n]; [reflexivity|].
    cbn [append prefix] in *.
    destruct (ascii_dec d c); [apply IH; exact H|discriminate].
Qed.

Lemma contains_str_app_l (n a b : string) :
  contains_str n a = true -> contains_str n (a ++ b) = true.
Proof.
  induction a as [|c a IH]; intros H.
  - cbn [contains_str] in H. rewrite orb_false_r in H.
    destruct n; [|discriminate]. destruct b; reflexivity.
  - cbn [contains_str] in H. apply orb_true_iff in H.
    change (String c a ++ b)%string with (String c (a ++ b)).
    cbn [contains_str]. apply orb_true_iff. destruct H as [H|H].
    + left. apply (prefix_app n (String c a) b H).
    + right. apply IH. exact H.
Qed.

Lemma contains_str_app_r (n a b : string) :
  contains_str n b = true -> contains_str n (a ++ b) = true.
Proof.
  intros H. induction a as [|c a IH]; [exact H|].
  change (String c a ++ b)%string with (String c (a ++ b)).
  cbn [contains_str]. rewrite IH. apply orb_true_r.
Qed.

Lemma contains_str_concat (n sep e : string) (msgs : list string) :
  In e msgs ->
  contains_str n (lower e) = true ->
  contains_str n (lower (concat sep msgs)) = true.
Proof.
  induction msgs as [|x xs IH]; intros Hin Hc; [destruct Hin|].
  cbn [concat]. destruct xs as [|y ys].
  - destruct Hin as [->|[]]. exact Hc.
  - rewrite !lower_app. destruct Hin as [->|Hin].
    + apply contains_str_app_l. exact Hc.
    + apply contains_str_app_r, contains_str_app_r.
      apply IH; assumption.
Qed.

(** X11.  [is_rate_limit_error] is false for a response that is no
    dictionary and for one without an error; it is true as soon as one
    message of the error list contains "rate limit" or "exceeded", in any
    letter case. *)
Theorem rate_limit_detection :
  is_rate_limit_error NotADict = false
  /\ (forall tr c, is_rate_limit_error (Dict (mkReply None tr c)) = false)
  /\ (forall tr c,
         is_rate_limit_error (Dict (mkReply (Some (ErrList [])) tr c)) = false)
  /\ (forall msgs e tr c,
         In e msgs ->
         contains_str "rate limit" (lower e) = true
         \/ contains_str "exceeded" (lower e) = true ->
         is_rate_limit_error (Dict (mkReply (Some (ErrList msgs)) tr c))
         = true).
Proof.
  split; [reflexivity|]. split; [reflexivity|]. split; [reflexivity|].
  intros msgs e tr c Hin H.
  unfold is_rate_limit_error, error_message. cbn [r_error].
  apply orb_true_iff. destruct H as [H|H]; [left|right];
    apply (contains_str_concat _ " " e msgs Hin H).
Qed.

Lemma rate_limit_detection_witness :
  is_rate_limit_error
    (Dict (mkReply (Some (ErrList ["EGeneral:Internal error";
                                   "EAPI:Rate limit exceeded"]%string))
                   [] 0))
  = true.
Proof.
  destruct rate_limit_detection as (_ & _ & _ & H).
  apply (H _ "EAPI:Rate limit exceeded"%string).
  - right. left. reflexivity.
  - left. reflexivity.
Defined.

Lemma rate_limit_has_error (resp : response) :
  is_rate_limit_error resp = true ->
  exists r, resp = Dict r /\ has_error (r_error r) = true.
Proof.
  destruct resp as [|r]; [discriminate|].
  intros H. exists r. split; [reflexivity|].
  unfold is_rate_limit_error in H.
  destruct (r_error r) as [[[|m ms]|t]|]; try reflexivity; discriminate.
Qed.

(** ** Retries *)

Lemma retry_loop_spec (query : nat -> response) (fuel : nat) :
  forall n tries slept,
    (fuel + tries = MAX_RETRIES + 1)%nat ->
    (1 <= fuel)%nat ->
    exists j,
      (tries + j <= MAX_RETRIES)%nat
      /\ (forall i, (i < j)%nat -> is_rate_limit_error (query (n + i)%nat) = true)
      /\ (is_rate_limit_error (query (n + j)%nat) = true ->
          (tries + j)%nat = MAX_RETRIES)
      /\ retry_loop fuel query n tries slept
         = Some (query (n + j)%nat, S (n + j),
                 (slept
                  ++ seq tries
                       (if is_rate_limit_error (query (n + j)%nat)
                        then S j else j))%list).
Proof.
  unfold MAX_RETRIES.
  induction fuel as [|f IH]; intros n tries slept Hf H1; [lia|].
  cbn [retry_loop].
  destruct (is_rate_limit_error (query n)) eqn:E; cbn [negb].
  - unfold MAX_RETRIES.
    destruct (Nat.ltb_spec 8 (S tries)) as [G|G].
    + exists O. rewrite !Nat.add_0_r, E. cbn [seq].
      repeat split; try lia.
    + destruct (IH (S n) (S tries) (slept ++ [tries])%list) as (j & Hj & Hall & Hlast & Hr);
        try lia.
      exists (S j).
      replace (n + S j)%nat with (S n + j)%nat by lia.
      split; [lia|]. split; [|split; [intros H; specialize (Hlast H); lia|]].
      * intros i Hi. destruct i as [|i]; [rewrite Nat.add_0_r; exact E|].
        replace (n + S i)%nat with (S n + i)%nat by lia. apply Hall. lia.
      * rewrite Hr, <- app_assoc. cbn [app].
        destruct (is_rate_limit_error (query (S n + j)%nat)); reflexivity.
  - exists O. rewrite !Nat.add_0_r, E. cbn [seq]. rewrite app_nil_r.
    repeat split; try lia; try discriminate.
Qed.

(** X12.  [kraken_private_with_retry] makes at most nine queries and
    returns the response to the last one it made: the first response that
    is not a rate limit error, or the ninth response when the first nine
    all are.  It sleeps once after each rate-limited response, the ninth
    included, with backoff exponents 0, 1, 2, ... *)
Theorem retry_gives_up_after_nine (query : nat -> response) (n : nat) :
  exists j,
    (j <= 8)%nat
    /\ (forall i, (i < j)%nat -> is_rate_limit_error (query (n + i)%nat) = true)
    /\ (is_rate_limit_error (query (n + j)%nat) = true -> j = 8%nat)
    /\ kraken_private_with_retry query n
       = Some (query (n + j)%nat, S (n + j),
               seq 0 (if is_rate_limit_error (query (n + j)%nat)
                      then S j else j)).
Proof.
  destruct (retry_loop_spec query (MAX_RETRIES + 1) n 0 [])
    as (j & Hj & Hall & Hlast & Hr); [reflexivity|unfold MAX_RETRIES; lia|].
  exists j. unfold MAX_RETRIES in *. cbn [Nat.add] in Hj, Hlast.
  repeat split; try assumption.
Qed.

(** ** Paging through the trade history *)

Lemma retry_first_ok (query : nat -> response) (n : nat) :
  is_rate_limit_error (query n) = false ->
  kraken_private_with_retry query n = Some (query n, S n, []).
Proof.
  intros H. unfold kraken_private_with_retry, MAX_RETRIES.
  cbn [Nat.add retry_loop]. rewrite H. reflexivity.
Qed.

Lemma firstn_next {A : Type} (o size : nat) (l : list A) :
  firstn o l ++ firstn size (skipn o l) = firstn (o + size) l.
Proof.
  revert l. induction o as [|o IH]; intros l; [reflexivity|].
  destruct l as [|x l]; cbn [firstn skipn Nat.add app].
  - destruct size; reflexivity.
  - rewrite IH. reflexivity.
Qed.

Lemma fetch_loop_paging (all : list trade) (size : nat) :
  (1 <= size)%nat ->
  forall fuel o n,
    (o <= List.length all)%nat ->
    (List.length all - o + 1 <= fuel)%nat ->
    exists q,
      fetch_loop fuel (paging_client all size) n (Z.of_nat o) (firstn o all)
      = Trades all q
      /\ (n < q <= n + (List.length all - o) + 1)%nat.
Proof.
  intros Hs. induction fuel as [|f IH]; intros o n Ho Hf; [lia|].
  cbn [fetch_loop].
  rewrite retry_first_ok by reflexivity.
  cbn [paging_client has_error r_error r_trades r_count].
  rewrite Nat2Z.id, firstn_next, length_firstn, length_skipn.
  destruct (Z.leb_spec (Z.of_nat (List.length all))
              (Z.of_nat o + Z.of_nat (Nat.min size (List.length all - o))))
    as [G|G].
  - exists (S n). split; [|lia].
    rewrite firstn_all2 by lia. reflexivity.
  - assert (E : (Nat.min size (List.length all - o) = size)%nat) by lia.
    rewrite E, <- Nat2Z.inj_add.
    destruct (IH (o + size)%nat (S n)) as (q & Hq & Hb); try lia.
    exists q. split; [exact Hq|lia].
Qed.

(** X13.  Against a client that serves a history of trades in pages of a
    fixed positive size and reports its length as the count,
    [fetch_all_trades] returns exactly that history, in order, after at
    most one query per trade plus one. *)
Theorem fetch_returns_paged_history (all : list trade) (size fuel : nat) :
  (1 <= size)%nat ->
  (List.length all + 1 <= fuel)%nat ->
  exists q,
    fetch_all_trades fuel (paging_client all size) = Trades all q
    /\ (1 <= q <= List.length all + 1)%nat.
Proof.
  intros Hs Hf.
  destruct (fetch_loop_paging all size Hs fuel O O) as (q & Hq & Hb);
    try lia.
  exists q. split; [exact Hq|lia].
Qed.

Lemma fetch_returns_paged_history_witness :
  exists q,
    fetch_all_trades 4 (paging_client c1_trades 2) = Trades c1_trades q
    /\ (1 <= q <= List.length c1_trades + 1)%nat.
Proof.
  apply (fetch_returns_paged_history c1_trades 2 4); cbn; lia.
Defined.

(** X14.  [fetch_all_trades] raises [RuntimeError] with the error of the
    response, and returns no trades, when the first response that is not
    rate limited reports an error; and when the first nine responses are
    all rate limited it raises with the ninth after nine queries. *)
Theorem fetch_raises_on_error (k : nat -> Z -> response) (fuel : nat) :
  (forall r,
      k O 0 = Dict r ->
      is_rate_limit_error (k O 0) = false ->
      has_error (r_error r) = true ->
      fetch_all_trades (S fuel) k = RuntimeError (r_error r) 1)
  /\ ((forall i, (i < 9)%nat -> is_rate_limit_error (k i 0) = true) ->
      exists r,
        k 8%nat 0 = Dict r
        /\ fetch_all_trades (S fuel) k = RuntimeError (r_error r) 9).
Proof.
  split.
  - intros r Hk Hl He. unfold fetch_all_trades. cbn [fetch_loop].
    rewrite retry_first_ok by exact Hl. rewrite Hk, He. reflexivity.
  - intros Hall.
    destruct (retry_loop_spec (fun i => k i 0) (MAX_RETRIES + 1) O O [])
      as (j & Hj & _ & Hlast & Hr); [reflexivity|unfold MAX_RETRIES; lia|].
    unfold MAX_RETRIES in *. cbn [Nat.add] in Hj, Hlast, Hr.
    assert (Ej : j = 8%nat) by (apply Hlast, Hall; lia). subst j.
    destruct (rate_limit_has_error (k 8%nat 0) (Hall 8%nat ltac:(lia)))
      as (r & Hk & He).
    exists r. split; [exact Hk|].
    unfold fetch_all_trades. cbn [fetch_loop].
    unfold kraken_private_with_retry, MAX_RETRIES. cbn [Nat.add].
    rewrite Hr, Hk, He. reflexivity.
Qed.

Lemma fetch_raises_on_error_witness :
  exists r,
    limited_client 8%nat 0 = Dict r
    /\ fetch_all_trades 1 limited_client = RuntimeError (r_error r) 9.
Proof.
  apply (proj2 (fetch_raises_on_error limited_client O)).
  intros i _. reflexivity.
Defined.

(** X15.  When every response is an error-free empty page with a
    positive count, the loop of [fetch_all_trades] never ends: the offset
    stays at 0 and the exit test [ofs >= count] stays false, whatever the
    number of pages allowed. *)
Theorem fetch_never_ends_on_empty_pages (k : nat -> Z -> response) (c : Z) :
  0 < c ->
  (forall i ofs, k i ofs = Dict (mkReply None [] c)) ->
  forall fuel, fetch_all_trades fuel k = Unfinished.
Proof.
  intros Hc Hk fuel. unfold fetch_all_trades. generalize O as n.
  induction fuel as [|f IH]; intros n; [reflexivity|].
  cbn [fetch_loop].
  rewrite retry_first_ok by (rewrite Hk; reflexivity).
  rewrite Hk. cbn [has_error r_error r_trades r_count app List.length].
  change (0 + Z.of_nat 0) with 0.
  destruct (Z.leb_spec c 0); [lia|]. apply IH.
Qed.

Lemma fetch_never_ends_witness :
  fetch_all_trades 1000 empty_pages_client = Unfinished.
Proof.
  apply (fetch_never_ends_on_empty_pages empty_pages_client 5).
  - lia.
  - intros i ofs. reflexivity.
Defined.

(** * The interactive adjustment *)

Lemma same_accounts_refl (r : Rec) : same_accounts r r.
Proof.
  unfold same_accounts. repeat split. exists O. reflexivity.
Qed.

Lemma same_accounts_trans (r1 r2 r3 : Rec) :
  same_accounts r1 r2 -> same_accounts r2 r3 -> same_accounts r1 r3.
Proof.
  unfold same_accounts.
  intros (A1 & A2 & A3 & A4 & A5 & A6 & A7 & A8 & j & Aj)
         (B1 & B2 & B3 & B4 & B5 & B6 & B7 & B8 & i & Bi).
  repeat split; try congruence.
  exists (i + j)%nat. rewrite Bi, Aj. apply skipn_skipn.
Qed.

Lemma shrink_same_accounts (rec : Rec) (t : Decimal) :
  exists rec',
    shrink_lots_fifo_to_target rec t = Ok rec' /\ same_accounts rec rec'.
Proof.
  rewrite shrink_eq. eexists. split; [reflexivity|].
  destruct (t >=? fst (total_remaining rec))%dec.
  - apply same_accounts_refl.
  - unfold same_accounts. cbn [set_lots buy_vol buy_cost sell_vol
      sell_proceeds fees realized_pnl last_ts pair_name lots].
    repeat split.
    apply head_consumed_px, fifo_shrink_shape.
Qed.

Lemma store_keys_same (k : key) (r : Rec) (agg : book) :
  In k (map fst agg) -> map fst (store k r agg) = map fst agg.
Proof.
  induction agg as [|[k2 r2] rest IH]; intros Hin; [destruct Hin|].
  cbn [store]. destruct (key_eqb k k2) eqn:E; cbn [map fst].
  - apply key_eqb_eq in E. subst. reflexivity.
  - f_equal. apply IH. cbn [map fst In] in Hin. destruct Hin as [->|H].
    + rewrite key_eqb_refl in E. discriminate.
    + exact H.
Qed.

Lemma get_rec_store (k k0 : key) (r : Rec) (agg : book) :
  get_rec k (store k0 r agg) = if key_eqb k0 k then r else get_rec k agg.
Proof.
  unfold get_rec. destruct (key_eqb k0 k) eqn:E.
  - apply key_eqb_eq in E. subst. rewrite lookup_store_same. reflexivity.
  - rewrite lookup_store_other by exact E. reflexivity.
Qed.

Lemma apply_adjustments_app (a1 a2 : list (key * Decimal)) :
  forall agg,
    apply_adjustments agg (a1 ++ a2)
    = apply_adjustments (apply_adjustments agg a1) a2.
Proof.
  induction a1 as [|[k t] rest IH]; intros agg; [reflexivity|].
  cbn [app apply_adjustments].
  destruct (shrink_lots_fifo_to_target (get_rec k agg) t); apply IH.
Qed.

Lemma apply_adjustments_frame (adj : list (key * Decimal)) :
  forall agg,
    Forall (fun e => In (fst e) (map fst agg)) adj ->
    map fst (apply_adjustments agg adj) = map fst agg
    /\ forall k,
         same_accounts (get_rec k agg) (get_rec k (apply_adjustments agg adj)).
Proof.
  induction adj as [|[k0 t] rest IH]; intros agg Hin; cbn [apply_adjustments].
  - split; [reflexivity|]. intros k. apply same_accounts_refl.
  - inversion Hin as [|? ? Hk Hrest]; subst. cbn [fst] in Hk.
    destruct (shrink_same_accounts (get_rec k0 agg) t) as (r' & -> & Hs).
    assert (Hkeys : map fst (store k0 r' agg) = map fst agg)
      by (apply store_keys_same; exact Hk).
    destruct (IH (store k0 r' agg)) as [Hm Hf].
    { rewrite Hkeys. exact Hrest. }
    split; [congruence|].
    intros k. eapply same_accounts_trans; [|apply Hf].
    rewrite get_rec_store. destruct (key_eqb k0 k) eqn:E.
    + apply key_eqb_eq in E. subst. exact Hs.
    + apply same_accounts_refl.
Qed.

Lemma adjustable_in_keys (agg : book) (k : key) :
  In k (adjustable agg) -> In k (map fst agg).
Proof.
  unfold adjustable. intros H. apply in_map_iff in H.
  destruct H as (e & <- & He). apply filter_In in He. destruct He as [He _].
  apply in_map. apply (Permutation_in _ (sorted_items_perm agg)). exact He.
Qed.

Section InteractiveFacts.

Variable decimal_of_text : string -> option Decimal.

Lemma prompt_target_spec (k : key) (inputs : list string) :
  forall agg,
  exists adj,
    Forall (fun e => fst e = k /\ (snd e <? Dec.zero)%dec = false) adj
    /\ fst (fst (prompt_target decimal_of_text agg k inputs))
       = apply_adjustments agg adj.
Proof.
  induction inputs as [|line rest IH]; intros agg; cbn [prompt_target].
  - exists []. split; [constructor|reflexivity].
  - destruct (decimal_of_text (strip line)) as [target|]; [|apply IH].
    unfold d. destruct (target <? Dec.zero)%dec eqn:E; [apply IH|].
    destruct (shrink_lots_fifo_to_target (get_rec k agg) target) as [r'|e]
      eqn:Hs; [|apply IH].
    exists [(k, target)]. split.
    + constructor; [split; [reflexivity|exact E]|constructor].
    + cbn [fst apply_adjustments]. rewrite Hs. reflexivity.
Qed.

Lemma adjust_each_spec (items : list key) (indices : list nat) :
  forall agg inputs,
  exists adj,
    Forall (fun e => In (fst e) items /\ (snd e <? Dec.zero)%dec = false) adj
    /\ adjust_each decimal_of_text agg items indices inputs
       = apply_adjustments agg adj.
Proof.
  induction indices as [|i more IH]; intros agg inputs; cbn [adjust_each].
  - exists []. split; [constructor|reflexivity].
  - destruct (nth_error items (i - 1)) as [k|] eqn:Hn.
    2:{ exists []. split; [constructor|reflexivity]. }
    apply nth_error_In in Hn.
    destruct (prompt_target_spec k inputs agg) as (a1 & Hf1 & H1).
    destruct (prompt_target decimal_of_text agg k inputs) as [[agg' rest] eof].
    cbn [fst] in H1. subst agg'.
    assert (Hf1' : Forall (fun e => In (fst e) items
                                    /\ (snd e <? Dec.zero)%dec = false) a1).
    { eapply Forall_impl; [|exact Hf1]. intros e [-> He]. auto. }
    destruct eof.
    + exists a1. auto.
    + destruct (IH (apply_adjustments agg a1) rest) as (a2 & Hf2 & H2).
      exists (a1 ++ a2)%list. split; [apply Forall_app; auto|].
      rewrite H2, apply_adjustments_app. reflexivity.
Qed.

Lemma maybe_adjust_spec (agg : book) (inputs : list string) :
  exists adj,
    Forall (fun e => In (fst e) (adjustable agg)
                     /\ (snd e <? Dec.zero)%dec = false) adj
    /\ maybe_adjust_balances decimal_of_text agg inputs
       = apply_adjustments agg adj.
Proof.
  assert (Hnone : exists adj,
             Forall (fun e => In (fst e) (adjustable agg)
                              /\ (snd e <? Dec.zero)%dec = false) adj
             /\ agg = apply_adjustments agg adj)
    by (exists []; split; [constructor|reflexivity]).
  unfold maybe_adjust_balances.
  destruct inputs as [|answer inputs]; [exact Hnone|].
  destruct (negb _); [exact Hnone|].
  destruct (adjustable agg) as [|k0 items] eqn:Hi; [exact Hnone|].
  destruct inputs as [|choice inputs]; [exact Hnone|].
  destruct (chosen _ _) as [|i more]; [exact Hnone|].
  apply adjust_each_spec.
Qed.

End InteractiveFacts.

(** X16.  Whatever is typed, [maybe_adjust_balances] changes the book
    only by calls of [shrink_lots_fifo_to_target] on pairs that had a
    positive remaining volume when the menu was built, each with a target
    that is not negative: a negative or unreadable target is asked for
    again and never reaches the ledger. *)
Theorem adjust_only_shrinks (decimal_of_text : string -> option Decimal)
  (agg : book) (inputs : list string) :
  exists adj,
    Forall (fun e => In (fst e) (adjustable agg)
                     /\ (snd e <? Dec.zero)%dec = false) adj
    /\ maybe_adjust_balances decimal_of_text agg inputs
       = apply_adjustments agg adj.
Proof.
  assert (Hnone : exists adj,
             Forall (fun e => In (fst e) (adjustable agg)
                              /\ (snd e <? Dec.zero)%dec = false) adj
             /\ agg = apply_adjustments agg adj)
    by (exists []; split; [constructor|reflexivity]).
  unfold maybe_adjust_balances.
  destruct inputs as [|answer inputs]; [exact Hnone|].
  destruct (negb _); [exact Hnone|].
  destruct (adjustable agg) as [|k0 items] eqn:Hi; [exact Hnone|].
  destruct inputs as [|choice inputs]; [exact Hnone|].
  destruct (chosen _ _) as [|i more]; [exact Hnone|].
  apply adjust_each_spec.
Qed.

(** X17.  [maybe_adjust_balances] keeps the pairs of the book, and in
    every record all the totals ([buy_vol], [buy_cost], [sell_vol],
    [sell_proceeds], [fees], [realized_pnl]), the time stamp and the pair
    name; the unit costs of the lots it leaves are a suffix of those
    before. *)
Theorem adjust_keeps_accounts (decimal_of_text : string -> option Decimal)
  (agg : book) (inputs : list string) :
  map fst (maybe_adjust_balances decimal_of_text agg inputs) = map fst agg
  /\ forall k,
       same_accounts
         (get_rec k agg)
         (get_rec k (maybe_adjust_balances decimal_of_text agg inputs)).
Proof.
  destruct (maybe_adjust_spec decimal_of_text agg inputs) as (adj & Hf & ->).
  apply apply_adjustments_frame.
  eapply Forall_impl; [|exact Hf].
  intros e [He _]. apply adjustable_in_keys. exact He.
Qed.

(** Declining, or giving no input at all, leaves the book as it is; and
    a session that selects everything and types a bad line before the
    target reads on to the target. *)
Example adjust_session :
  maybe_adjust_balances digits_only [(("ETH", "USD")%string, sample_rec)] []
  = [(("ETH", "USD")%string, sample_rec)]
  /\ maybe_adjust_balances digits_only [(("ETH", "USD")%string, sample_rec)]
       ["n"%string] = [(("ETH", "USD")%string, sample_rec)]
  /\ map (fun e => map lot_vol (lots (snd e)))
         (maybe_adjust_balances digits_only
            [(("ETH", "USD")%string, sample_rec)]
            [" Yes "; "all"; "one"; " 1 "]%string)
     = [[dz 1]].
Proof. repeat split; vm_compute; reflexivity. Qed.

(** * Signs under rounding *)

Lemma fix_sign (x : Decimal) :
  (0 <= coef x -> 0 <= coef (fix_ x))
  /\ (coef x <= 0 -> coef (fix_ x) <= 0).
Proof.
  unfold fix_.
  destruct (Z.abs (coef x) <? 10 ^ prec); [tauto|].
  set (a := Z.abs (coef x)).
  set (kk := ndigits a - prec).
  assert (Hq : 0 <= a / 10 ^ kk).
  { destruct (Z.lt_ge_cases 0 (10 ^ kk)) as [G|G].
    - apply Z.div_pos; [apply Z.abs_nonneg|exact G].
    - pose proof (Z.pow_nonneg 10 kk ltac:(lia)).
      replace (10 ^ kk) with 0 by lia. rewrite Z.div_0_r. lia. }
  assert (Hp : 0 < 10 ^ (prec - 1)) by (apply pow10_pos; unfold prec; lia).
  match goal with
  | |- context [if ?b then ?u + 1 else ?u] => destruct b
  end;
    match goal with
    | |- context [if ?b then _ else _] => destruct b
    end; cbn [coef]; split; intros H; nia.
Qed.

Lemma sub_sign (x y : Decimal) :
  ((y <=? x)%dec = true -> 0 <= coef (x - y)%dec)
  /\ ((x <=? y)%dec = true -> coef (x - y)%dec <= 0).
Proof.
  unfold Dec.leb, Dec.sub, aligned.
  rewrite (Z.min_comm (expo y) (expo x)).
  set (e := Z.min (expo x) (expo y)).
  split; intros H; apply Z.leb_le in H; apply fix_sign; cbn [coef]; lia.
Qed.

Lemma mul_sign (x y : Decimal) :
  0 <= coef y ->
  (0 <= coef x -> 0 <= coef (x * y)%dec)
  /\ (coef x <= 0 -> coef (x * y)%dec <= 0).
Proof.
  intros Hy. unfold Dec.mul.
  split; intros H; apply fix_sign; cbn [coef]; nia.
Qed.

Lemma add_sign (x y : Decimal) :
  (0 <= coef x -> 0 <= coef y -> 0 <= coef (x + y)%dec)
  /\ (coef x <= 0 -> coef y <= 0 -> coef (x + y)%dec <= 0).
Proof.
  unfold Dec.add, aligned.
  set (e := Z.min (expo x) (expo y)).
  pose proof (pow10_pos (expo x - e) ltac:(lia)).
  pose proof (pow10_pos (expo y - e) ltac:(lia)).
  split; intros Hx Hy; apply fix_sign; cbn [coef]; nia.
Qed.

Lemma unrealized_nonneg (price : Decimal) (l : list Lot) :
  forall acc,
    0 <= coef acc ->
    forallb (priced_below price) l = true ->
    0 <= coef (fold_left
                 (fun a lot => (a + (price - lot_px lot) * lot_vol lot)%dec)
                 l acc).
Proof.
  induction l as [|lot rest IH]; intros acc Ha Hl; cbn [fold_left].
  - exact Ha.
  - cbn [forallb] in Hl. apply andb_true_iff in Hl. destruct Hl as [Hlot Hr].
    unfold priced_below in Hlot. apply andb_true_iff in Hlot.
    destruct Hlot as [Hv Hp]. apply Z.leb_le in Hv.
    apply IH; [|exact Hr].
    apply add_sign; [exact Ha|].
    apply mul_sign; [exact Hv|]. apply sub_sign. exact Hp.
Qed.

Lemma unrealized_nonpos (price : Decimal) (l : list Lot) :
  forall acc,
    coef acc <= 0 ->
    forallb (priced_above price) l = true ->
    coef (fold_left
            (fun a lot => (a + (price - lot_px lot) * lot_vol lot)%dec)
            l acc) <= 0.
Proof.
  induction l as [|lot rest IH]; intros acc Ha Hl; cbn [fold_left].
  - exact Ha.
  - cbn [forallb] in Hl. apply andb_true_iff in Hl. destruct Hl as [Hlot Hr].
    unfold priced_above in Hlot. apply andb_true_iff in Hlot.
    destruct Hlot as [Hv Hp]. apply Z.leb_le in Hv.
    apply IH; [|exact Hr].
    apply add_sign; [exact Ha|].
    apply mul_sign; [exact Hv|]. apply sub_sign. exact Hp.
Qed.

(** X18.  In the row of a record whose lots hold non-negative volumes,
    the unrealized PnL is not negative when no lot has a unit cost above
    the current price, and not positive when no lot has a unit cost below
    it, rounding included; hence it is zero when every lot is priced at
    its unit cost. *)
Theorem unrealized_sign (prices : string -> option Decimal) (k : key)
  (r : Rec) :
  exists w,
    build_row prices k r = Ok w
    /\ (forallb (priced_below (current_price w)) (lots r) = true ->
        0 <= coef (unrealized_pnl w))
    /\ (forallb (priced_above (current_price w)) (lots r) = true ->
        coef (unrealized_pnl w) <= 0).
Proof.
  destruct (avg_of_ok (buy_cost r) (buy_vol r)) as [a Ha].
  destruct (avg_of_ok (sell_proceeds r) (sell_vol r)) as [b Hb].
  destruct (avg_of_ok (Dec.sum (map lot_cost (lots r)))
                      (Dec.sum (map lot_vol (lots r)))) as [c Hc].
  unfold build_row. rewrite Ha, Hb. cbn [bind]. rewrite Hc. cbn [bind].
  eexists. split; [reflexivity|].
  cbn [current_price unrealized_pnl].
  set (current := match pair_name r with
                  | Some n => match prices n with
                              | Some p => p
                              | None => Dec.zero
                              end
                  | None => Dec.zero
                  end).
  unfold unrealized_of.
  destruct ((current >? Dec.zero)%dec && _).
  - split; intros H.
    + apply unrealized_nonneg; [cbn [coef Dec.zero]; lia|exact H].
    + apply unrealized_nonpos; [cbn [coef Dec.zero]; lia|exact H].
  - cbn [coef Dec.zero]. split; intros _; lia.
Qed.

Lemma unrealized_sign_witness :
  exists w,
    build_row (fun _ => Some (dz 20)) ("ETH", "USD")%string sample_rec = Ok w
    /\ 0 <= coef (unrealized_pnl w).
Proof.
  destruct (unrealized_sign (fun _ => Some (dz 20)) ("ETH", "USD")%string
              sample_rec) as (w & Hw & Hpos & _).
  exists w. split; [exact Hw|].
  apply Hpos.
  assert (E : current_price w = dz 20).
  { vm_compute in Hw. injection Hw as <-. reflexivity. }
  rewrite E. reflexivity.
Defined.

(** * Shrinking to zero *)

Lemma positive_plain_held (k : Z) (l : list Lot) :
  0 <= k ->
  plain_lots k l = true ->
  positive_lots l = true ->
  held k l = 0 ->
  l = [].
Proof.
  intros Hk Hp Hpos Hh. destruct l as [|lot rest]; [reflexivity|].
  cbn [plain_lots positive_lots forallb] in Hp, Hpos.
  apply andb_true_iff in Hp. destruct Hp as [Hlot Hrest].
  apply andb_true_iff in Hpos. destruct Hpos as [Hg _].
  pose proof (held_nonneg k Hk rest Hrest) as Hn.
  apply (plain_scaled k Hk) in Hlot. destruct Hlot as [He _].
  assert (Hc : 0 < coef (lot_vol lot)) by (apply gtb_zero_iff; exact Hg).
  assert (Hs : 0 < scaled k (lot_vol lot))
    by (apply (scaled_pos_iff k Hk _ He); exact Hc).
  rewrite (held_cons k Hk) in Hh. lia.
Qed.

(** X19.  On positive lots of at most [k] decimal places and fewer than
    28 digits in all, a shrink to the target 0 leaves no lot. *)
Theorem shrink_to_zero_empties (k : Z) (rec : Rec) :
  0 <= k ->
  plain_lots k (lots rec) = true ->
  positive_lots (lots rec) = true ->
  held k (lots rec) < 10 ^ prec ->
  exists rec',
    shrink_lots_fifo_to_target rec Dec.zero = Ok rec' /\ lots rec' = [].
Proof.
  intros Hk Hp Hpos Hb.
  destruct (total_remaining_scaled k Hk rec Hp Hb) as [Hce Hcs].
  destruct (Dec.zero <? fst (total_remaining rec))%dec eqn:E.
  - assert (Hz : plain k Dec.zero = true)
      by (apply (plain_of_scaled k Hk); [cbn [expo Dec.zero]; lia|rewrite (scaled_zero k Hk); lia]).
    destruct (shrink_on_grid k Hk rec Dec.zero Hp Hb Hz E)
      as (rec' & Hs & Hp' & Hh).
    exists rec'. split; [exact Hs|].
    apply (positive_plain_held k _ Hk Hp'); [|rewrite Hh; apply (scaled_zero k Hk)].
    destruct (step_positive rec (Shrink Dec.zero) eq_refl Hpos)
      as (rec2 & Hs2 & Hpos2).
    cbn [apply_op] in Hs2. congruence.
  - exists rec. split.
    + rewrite shrink_eq. unfold Dec.geb.
      assert (Hge : (fst (total_remaining rec) <=? Dec.zero)%dec = true).
      { apply leb_zero_iff.
        destruct (Z.le_gt_cases (coef (fst (total_remaining rec))) 0) as [G|G];
          [exact G|].
        apply gtb_zero_iff in G. unfold Dec.gtb in G. congruence. }
      rewrite Hge. reflexivity.
    + apply (positive_plain_held k _ Hk Hp Hpos).
      rewrite <- Hcs.
      assert (G : ~ 0 < coef (fst (total_remaining rec))).
      { intros G. apply gtb_zero_iff in G. unfold Dec.gtb in G. congruence. }
      pose proof (held_nonneg k Hk (lots rec) Hp) as Hn. rewrite <- Hcs in Hn.
      destruct (Z.le_gt_cases (scaled k (fst (total_remaining rec))) 0) as [L|L];
        [lia|].
      apply (scaled_pos_iff k Hk _ Hce) in L. contradiction.
Qed.

Lemma shrink_to_zero_witness :
  exists rec',
    shrink_lots_fifo_to_target sample_rec Dec.zero = Ok rec' /\ lots rec' = [].
Proof.
  apply (shrink_to_zero_empties 8 sample_rec); try reflexivity. lia.
Defined.

(** * Malformed rows *)

(** X20.  Rows that the [try] block rejects have no effect at all:
    [aggregate_trades] gives the same book with and without them. *)
Theorem malformed_rows_are_ignored (trades : list trade) :
  aggregate_trades trades = aggregate_trades (filter well_formed trades).
Proof.
  unfold aggregate_trades. generalize (@nil (key * Rec)) as agg.
  induction trades as [|t rest IH]; intros agg; [reflexivity|].
  cbn [filter]. unfold well_formed at 1.
  destruct (parse_trade t) as [pt|] eqn:Hp.
  - cbn [aggregate_from].
    destruct (aggregate_step agg t) as [agg'|e]; cbn [bind];
      [apply IH|reflexivity].
  - cbn [aggregate_from]. unfold aggregate_step at 1. rewrite Hp.
    cbn [bind]. apply IH.
Qed.

(** * The printed table *)

Lemma length_append (a b : string) :
  String.length (a ++ b) = (String.length a + String.length b)%nat.
Proof.
  induction a as [|c a IH]; cbn [append String.length]; [reflexivity|].
  rewrite IH. reflexivity.
Qed.

Lemma length_repeat_char (c : ascii) (n : nat) :
  String.length (repeat_char c n) = n.
Proof.
  induction n as [|n IH]; cbn [repeat_char String.length]; [reflexivity|].
  rewrite IH. reflexivity.
Qed.

Lemma ljust_length (w : nat) (s : string) :
  String.length (ljust w s) = Nat.max w (String.length s).
Proof.
  unfold ljust. rewrite length_append, length_repeat_char. lia.
Qed.

Lemma concat_length_eq (sep : string) (l1 : list string) :
  forall l2,
    map String.length l1 = map String.length l2 ->
    String.length (concat sep l1) = String.length (concat sep l2).
Proof.
  induction l1 as [|x xs IH]; intros [|y ys] H; try discriminate;
    [reflexivity|].
  cbn [map] in H. injection H as Hx Hxs.
  specialize (IH ys Hxs).
  destruct xs as [|x2 xs], ys as [|y2 ys]; try discriminate.
  - exact Hx.
  - change (concat sep (x :: x2 :: xs))
      with (x ++ sep ++ concat sep (x2 :: xs))%string.
    change (concat sep (y :: y2 :: ys))
      with (y ++ sep ++ concat sep (y2 :: ys))%string.
    rewrite !length_append, IH, Hx. reflexivity.
Qed.

Lemma width_of_bounds (rows : list text_row) (h : string) :
  (String.length h <= width_of rows h)%nat
  /\ forall r, In r rows -> (String.length (r h) <= width_of rows h)%nat.
Proof.
  unfold width_of. split; [lia|].
  induction rows as [|r0 rest IH]; intros r Hin; [destruct Hin|].
  cbn [fold_right]. destruct Hin as [->|Hin]; [lia|].
  specialize (IH r Hin). lia.
Qed.

Lemma cells_lengths (rows : list text_row) (cell : string -> string) :
  (forall h, (String.length (cell h) <= width_of rows h)%nat) ->
  map String.length (map (fun h => ljust (width_of rows h) (cell h)) headers)
  = map (width_of rows) headers.
Proof.
  intros H. rewrite map_map. apply map_ext.
  intros h. rewrite ljust_length. specialize (H h). lia.
Qed.

(** X21.  For a non-empty list of rows, [pretty_print] prints a header, a
    rule and one line per row, and all these lines have the same length:
    every cell is padded to the width of its column, which is at least the
    length of the column name and of every text in the column. *)
Theorem pretty_print_aligned (rows : list text_row) :
  rows <> [] ->
  List.length (pretty_print rows) = (List.length rows + 2)%nat
  /\ exists n,
       Forall (fun line => String.length line = n) (pretty_print rows).
Proof.
  intros Hne.
  set (header := concat " | "
                   (map (fun h => ljust (width_of rows h) h) headers)).
  assert (Hpp : pretty_print rows
                = header
                    :: repeat_char "-" (String.length header)
                    :: map (fun r =>
                              concat " | "
                                (map (fun h => ljust (width_of rows h) (r h))
                                     headers))
                           rows)
    by (destruct rows; [contradiction|reflexivity]).
  rewrite Hpp.
  split; [cbn [List.length]; rewrite length_map, Nat.add_comm; reflexivity|].
  exists (String.length header).
  constructor; [reflexivity|].
  constructor; [apply length_repeat_char|].
  apply Forall_forall. intros line Hin. apply in_map_iff in Hin.
  destruct Hin as (r & <- & Hr). unfold header.
  apply concat_length_eq.
  rewrite (cells_lengths rows (fun h => r h)),
          (cells_lengths rows (fun h => h)).
  - reflexivity.
  - intros h. apply width_of_bounds.
  - intros h. apply (proj2 (width_of_bounds rows h)). exact Hr.
Qed.

Lemma pretty_print_aligned_witness :
  List.length (pretty_print [sample_text_row]) = 3%nat
  /\ exists n,
       Forall (fun line => String.length line = n)
              (pretty_print [sample_text_row]).
Proof.
  apply (pretty_print_aligned [sample_text_row]). discriminate.
Defined.

(** With no rows a single message is printed. *)
Example pretty_print_empty : pretty_print [] = ["No trades found."%string].
Proof. reflexivity. Qed.
